(** * The manual k-means loop of [notebooks/Day2_4-Clustering.ipynb]

    The notebook builds k-means by hand in four code cells:

    - cell 13: [distances = cdist(centroids, list(zip(x,y)))]
    - cell 15: [labels = distances.argmin(axis=0)]
    - cell 18: [new_centroids = [(x[labels==i].mean(), y[labels==i].mean())
                                 for i in range(len(centroids))]]
    - cell 21: [centroids = new_centroids; iterations = 20] followed by
      [for _ in range(iterations):] around the same three statements.

    The embedding below follows these cells statement by statement.  The
    numbers are NumPy [float64] values; the arithmetic the cells use is
    collected in the class [Scalar], which is instantiated with the kernel's
    IEEE-754 binary64 floats (module [F64], the notebook as it runs) and with
    exact rationals with a NaN (module [Exact], the same loop without
    rounding).  Module [Kernel] follows cell 21 once more as a
    transformation of the variables the kernel holds when the cell runs. *)

From Stdlib Require Import List Arith Bool Lia ZArith QArith Lqa Floats.
From Stdlib Require Import Permutation.
From Stdlib Require Ascii String.
Import ListNotations.
Import Ascii.AsciiSyntax String.StringSyntax.
Delimit Scope char_scope with char.
Delimit Scope string_scope with string.

Close Scope Q_scope.
Open Scope nat_scope.

Set Implicit Arguments.

(** ** Exceptions *)

(** The only exception the three library calls of the loop can raise is
    [ValueError]: [cdist] on an argument that is not a two-dimensional array
    or whose column count differs, [argmin] on an empty axis. *)
Inductive exn : Type := ValueError.

Inductive result (A : Type) : Type :=
| Ok (a : A)
| Raise (e : exn).
Arguments Ok {A} a.
Arguments Raise {A} e.

Definition bind {A B : Type} (m : result A) (k : A -> result B) : result B :=
  match m with
  | Ok a => k a
  | Raise e => Raise e
  end.

Notation "x <- m ;; k" := (bind m (fun x => k))
  (at level 61, m at next level, right associativity).

(** ** The arithmetic of [float64] as the loop uses it *)

Class Scalar (T : Type) : Type := {
  s_zero : T;
  s_add : T -> T -> T;
  s_sub : T -> T -> T;
  s_mul : T -> T -> T;
  s_div : T -> T -> T;
  (** the element count of [mean], converted to the array's dtype *)
  s_of_nat : nat -> T;
  (** [a <= b], false as soon as one side is NaN *)
  s_leb : T -> T -> bool;
  s_isnan : T -> bool
}.

(** What the order proofs need of [<=]: it is transitive, nothing is below
    or equal to a NaN, and two values that are not NaN compare. *)
Class ScalarOrder (T : Type) {SC : Scalar T} : Prop := {
  s_leb_trans : forall a b c : T,
      s_leb a b = true -> s_leb b c = true -> s_leb a c = true;
  s_leb_nan : forall a v : T, s_isnan v = true -> s_leb a v = false;
  s_leb_total : forall a b : T,
      s_isnan a = false -> s_isnan b = false ->
      s_leb a b = true \/ s_leb b a = true
}.
Arguments ScalarOrder T {SC}.

Section KMeans.

Context {T : Type} {SC : Scalar T}.

(** A point of [list(zip(x,y))]. *)
Definition point : Type := (T * T)%type.

(** One entry of [centroids]: a sequence of coordinates (a tuple in the
    notebook). *)
Definition row : Type := list T.

(** [cdist]'s [metric] argument; the notebook leaves it at its default,
    ['euclidean']. *)
Variable metric : point -> point -> T.

(** *** cell 13: [cdist] *)

(** [np.asarray(XA)] must be two-dimensional with as many columns as the
    points have, which is two. *)
Definition as_point (c : row) : option point :=
  match c with
  | [a; b] => Some (a, b)
  | _ => None
  end.

Fixpoint as_points (XA : list row) : option (list point) :=
  match XA with
  | [] => Some []
  | c :: XA' =>
      match as_point c, as_points XA' with
      | Some p, Some ps => Some (p :: ps)
      | _, _ => None
      end
  end.

(** [cdist(XA, XB)]: the matrix with one row per entry of [XA] and one
    column per entry of [XB].  An empty sequence is a one-dimensional array
    for [np.asarray], which [cdist] rejects. *)
Definition cdist (XA : list row) (XB : list point) : result (list (list T)) :=
  match XA, XB with
  | [], _ => Raise ValueError
  | _, [] => Raise ValueError
  | _, _ =>
      match as_points XA with
      | None => Raise ValueError
      | Some ps => Ok (map (fun c => map (fun p => metric c p) XB) ps)
      end
  end.

(** *** cell 15: [argmin(axis=0)] *)

(** NumPy's scan of one column: [mp] is the running minimum, [min_ind] its
    index, [i] the index of the next element.  The test is [!(mp <= v)], so
    an equal element never replaces an earlier one, and a NaN is taken and
    ends the scan. *)
Fixpoint argmin_scan (mp : T) (min_ind i : nat) (l : list T) : nat :=
  match l with
  | [] => min_ind
  | v :: l' =>
      if negb (s_leb mp v)
      then if s_isnan v then i else argmin_scan v i (S i) l'
      else argmin_scan mp min_ind (S i) l'
  end.

Definition argmin (l : list T) : result nat :=
  match l with
  | [] => Raise ValueError
  | v :: l' => Ok (if s_isnan v then 0 else argmin_scan v 0 1 l')
  end.

Definition column (i : nat) (D : list (list T)) : list T :=
  map (fun r => nth i r s_zero) D.

Fixpoint sequence {A : Type} (l : list (result A)) : result (list A) :=
  match l with
  | [] => Ok []
  | m :: l' => a <- m ;; r <- sequence l' ;; Ok (a :: r)
  end.

(** [D.argmin(axis=0)] on a matrix of shape (K, M): one index per column;
    [ValueError] when there is no row to take the minimum over. *)
Definition argmin_axis0 (D : list (list T)) : result (list nat) :=
  match D with
  | [] => Raise ValueError
  | r :: _ => sequence (map (fun i => argmin (column i D)) (seq 0 (length r)))
  end.

(** *** cell 18: the means of the members *)

(** [labels == i] *)
Definition labels_eq (labels : list nat) (i : nat) : list bool :=
  map (fun l => Nat.eqb l i) labels.

(** [a[mask]] for a boolean mask of the length of [a]. *)
Fixpoint boolean_index (a : list T) (mask : list bool) : list T :=
  match a, mask with
  | v :: a', b :: mask' =>
      if b then v :: boolean_index a' mask' else boolean_index a' mask'
  | _, _ => []
  end.

(** The sum [mean] divides: the elements added in index order.  (NumPy adds
    longer arrays in blocks; the two orders differ by rounding only.) *)
Definition sum (a : list T) : T := fold_left s_add a s_zero.

(** [a.mean()]: the sum divided by the number of elements.  For an empty
    selection this is [0.0 / 0]; NumPy warns and returns the quotient. *)
Definition mean (a : list T) : T := s_div (sum a) (s_of_nat (length a)).

(** The arrays [x] and [y] are the two rows of one (2, M) array; the model
    keeps the points [list(zip(x,y))] and reads [x] and [y] off them. *)
Definition xs (points : list point) : list T := map fst points.
Definition ys (points : list point) : list T := map snd points.

Definition new_centroids (points : list point) (labels : list nat)
    (centroids : list row) : list row :=
  map (fun i => [mean (boolean_index (xs points) (labels_eq labels i));
                 mean (boolean_index (ys points) (labels_eq labels i))])
      (seq 0 (length centroids)).

(** The three cells, each as a function of what it reads. *)
Definition cell13 (centroids : list row) (points : list point) :
    result (list (list T)) :=
  cdist centroids points.

Definition cell15 (distances : list (list T)) : result (list nat) :=
  argmin_axis0 distances.

Definition cell18 (points : list point) (labels : list nat)
    (centroids : list row) : list row :=
  new_centroids points labels centroids.

(** *** cell 21: the loop *)

(** One pass through the body of the [for] loop: the new values of [labels]
    and [centroids]. *)
Definition loop_body (points : list point) (centroids : list row) :
    result (list nat * list row) :=
  distances <- cdist centroids points ;;
  labels <- argmin_axis0 distances ;;
  Ok (labels,
      map (fun i => [mean (boolean_index (xs points) (labels_eq labels i));
                     mean (boolean_index (ys points) (labels_eq labels i))])
          (seq 0 (length centroids))).

(** [for _ in range(iterations)]: the values of [labels] and [centroids] at
    the end of every completed pass, in order, and the exception that ended
    the loop, if one did. *)
Fixpoint for_loop (iterations : nat) (points : list point)
    (centroids : list row) : list (list nat * list row) * option exn :=
  match iterations with
  | 0 => ([], None)
  | S n =>
      match loop_body points centroids with
      | Raise e => ([], Some e)
      | Ok (labels, centroids') =>
          let (tr, e) := for_loop n points centroids' in
          ((labels, centroids') :: tr, e)
      end
  end.

(** The value of [centroids] when the loop is left. *)
Definition final_centroids (iterations : nat) (points : list point)
    (centroids : list row) : list row :=
  last (map snd (fst (for_loop iterations points centroids))) centroids.

(** The number of passes through the body that completed. *)
Definition iterations_performed (iterations : nat) (points : list point)
    (centroids : list row) : nat :=
  length (fst (for_loop iterations points centroids)).

(** Cell 21 as the notebook has it: [centroids = new_centroids] and
    [iterations = 20]. *)
Definition cell21 (points : list point) (new_centroids : list row) :
    list (list nat * list row) * option exn :=
  let centroids := new_centroids in
  let iterations := 20 in
  for_loop iterations points centroids.

End KMeans.

Arguments point : clear implicits.
Arguments row : clear implicits.

(** ** The distortion

    The sum over all points of the squared Euclidean distance from the point
    to the centroid it is assigned to (the notebook's J(c, mu)). *)

Section Distortion.

Context {T : Type} {SC : Scalar T}.

(** The squared Euclidean distance, accumulated coordinate by coordinate
    from zero. *)
Definition sqeuclidean (u v : point T) : T :=
  let d0 := s_sub (fst u) (fst v) in
  let d1 := s_sub (snd u) (snd v) in
  s_add (s_add s_zero (s_mul d0 d0)) (s_mul d1 d1).

(** The centroid a label selects. *)
Definition centroid_at (centroids : list (row T)) (l : nat) : point T :=
  match as_point (nth l centroids []) with
  | Some c => c
  | None => (s_zero, s_zero)
  end.

Definition distortion (points : list (point T)) (labels : list nat)
    (centroids : list (row T)) : T :=
  sum (map (fun pl => sqeuclidean (centroid_at centroids (snd pl)) (fst pl))
           (combine points labels)).

End Distortion.

(** ** Vocabulary of the statements *)

Section Vocabulary.

Context {T : Type} {SC : Scalar T}.

(** The shapes [cdist] accepts: at least one point, at least one centroid,
    every centroid with the points' two coordinates. *)
Definition shapes_ok (points : list (point T)) (centroids : list (row T)) : bool :=
  negb (Nat.eqb (length points) 0) && negb (Nat.eqb (length centroids) 0)
  && forallb (fun c => Nat.eqb (length c) 2) centroids.

(** The index [argmin] gives a point when the centroids are [ps]: the scan
    of the column of its distances. *)
Definition nearest (metric : point T -> point T -> T) (ps : list (point T))
    (p : point T) : nat :=
  match ps with
  | [] => 0
  | c :: ps' =>
      if s_isnan (metric c p) then 0
      else argmin_scan (metric c p) 0 1 (map (fun c' => metric c' p) ps')
  end.

(** The specification's stopping rule, read on the record of a loop: the
    pass whose assignment repeats the previous one is the last pass. *)
Definition stops_when_stable (tr : list (list nat * list (row T))) : Prop :=
  forall t l c1 c2,
    nth_error tr t = Some (l, c1) ->
    nth_error tr (S t) = Some (l, c2) ->
    length tr = S (S t).

(** No coordinate of any centroid of the record is a NaN. *)
Definition all_defined (tr : list (list nat * list (row T))) : bool :=
  forallb (fun e => forallb (fun c => forallb (fun v => negb (s_isnan v)) c) (snd e)) tr.

(** [d j] is a minimum of the column [d]: it is below or equal to every
    entry. *)
Definition is_minimum (d : list T) (j : nat) : Prop :=
  j < length d /\
  forall k, k < length d -> s_leb (nth j d s_zero) (nth k d s_zero) = true.

(** The specification's reasons for rejecting a configuration: more
    centroids than points, no centroid, a centroid whose dimension is not
    the points', or fewer than one pass. *)
Definition invalid_configuration (N : nat) (points : list (point T))
    (centroids : list (row T)) : Prop :=
  length points < length centroids \/ length centroids < 1 \/
  (exists c, In c centroids /\ length c <> 2) \/ N < 1.

(** The specification's construction contract, read on the loop: it fails
    exactly on the invalid configurations. *)
Definition fails_iff_invalid (metric : point T -> point T -> T) (N : nat)
    (points : list (point T)) (centroids : list (row T)) : Prop :=
  snd (for_loop metric N points centroids) <> None <->
  invalid_configuration N points centroids.

(** The specification's empty-cluster policy, read on one pass: a centroid
    without members keeps its coordinates. *)
Definition frozen_when_empty (metric : point T -> point T -> T)
    (points : list (point T)) (centroids : list (row T)) : Prop :=
  forall labels centroids' j,
    loop_body metric points centroids = Ok (labels, centroids') ->
    j < length centroids -> ~ In j labels ->
    nth_error centroids' j = nth_error centroids j.

(** A run without fault: no exception and no NaN in any recorded state. *)
Definition run_is_fault_free (metric : point T -> point T -> T) (N : nat)
    (points : list (point T)) (centroids : list (row T)) : Prop :=
  snd (for_loop metric N points centroids) = None /\
  all_defined (fst (for_loop metric N points centroids)) = true.

(** The distortion after a pass is below or equal to the distortion after
    the pass before it. *)
Definition distortion_non_increasing (points : list (point T))
    (tr : list (list nat * list (row T))) : Prop :=
  forall t l1 c1 l2 c2,
    nth_error tr t = Some (l1, c1) ->
    nth_error tr (S t) = Some (l2, c2) ->
    s_leb (distortion points l2 c2) (distortion points l1 c1) = true.

End Vocabulary.

(** ** The notebook's numbers: IEEE-754 binary64 *)

Module F64.

#[export] Instance float64 : Scalar float := {|
  s_zero := 0%float;
  s_add := PrimFloat.add;
  s_sub := PrimFloat.sub;
  s_mul := PrimFloat.mul;
  s_div := PrimFloat.div;
  s_of_nat := fun n => PrimFloat.of_uint63 (Uint63.of_Z (Z.of_nat n));
  s_leb := PrimFloat.leb;
  s_isnan := PrimFloat.is_nan
|}.

(** SciPy's ['euclidean']: the square root of the squared distance. *)
Definition euclidean (u v : point float) : float :=
  PrimFloat.sqrt (sqeuclidean u v).

(** The points of the specification's scenario, (0,0), (0,1), (10,0) and
    (10,1), with two and with three starting centroids. *)
Definition square_points : list (point float) :=
  [(0, 0); (0, 1); (10, 0); (10, 1)]%float.

Definition two_centroids : list (row float) := [[0; 0]; [10; 0]]%float.

Definition three_centroids : list (row float) :=
  [[0; 0]; [10; 0]; [100; 100]]%float.

(** One point and two centroids. *)
Definition one_point : list (point float) := [(0, 0)]%float.

Definition two_for_one : list (row float) := [[1; 1]; [2; 2]]%float.

(** Four points and two centroids near 1e16, where consecutive [float64]
    values are 2 apart. *)
Definition far_points : list (point float) :=
  [(10000000000000004, 10000000000000004);
   (10000000000000002, 10000000000000002);
   (10000000000000000, 10000000000000006);
   (10000000000000004, 10000000000000000)]%float.

Definition far_centroids : list (row float) :=
  [[10000000000000000; 10000000000000006];
   [10000000000000000; 10000000000000002]]%float.

(** Every coordinate handed to the loop is a finite number. *)
Definition finite_inputs (points : list (point float))
    (centroids : list (row float)) : bool :=
  forallb (fun p => PrimFloat.is_finite (fst p) && PrimFloat.is_finite (snd p))
          points
  && forallb (forallb PrimFloat.is_finite) centroids.

(** The specification's valid construction: at least one point, between one
    and as many centroids as points, at least one pass, centroids of the
    points' dimension, finite coordinates. *)
Definition valid_construction (N : nat) (points : list (point float))
    (centroids : list (row float)) : Prop :=
  1 <= length points /\ 1 <= length centroids /\
  length centroids <= length points /\ 1 <= N /\
  (forall c, In c centroids -> length c = 2) /\
  finite_inputs points centroids = true.

End F64.

(** ** The same loop in exact arithmetic *)

(** The field of the rationals: the arithmetic of the real numbers behind
    the [float64] values, without rounding and without NaN. *)
Module Rational.

#[export] Instance rational : Scalar Q := {|
  s_zero := 0%Q;
  s_add := Qplus;
  s_sub := Qminus;
  s_mul := Qmult;
  s_div := Qdiv;
  s_of_nat := fun n => inject_Z (Z.of_nat n);
  s_leb := Qle_bool;
  s_isnan := fun _ => false
|}.

(** The sum of a list of rationals, from the right. *)
Definition qsum (l : list Q) : Q := fold_right Qplus 0%Q l.

(** The points that carry the label [j]. *)
Fixpoint members (points : list (point Q)) (labels : list nat) (j : nat) :
    list (point Q) :=
  match points, labels with
  | p :: points', l :: labels' =>
      if Nat.eqb l j then p :: members points' labels' j
      else members points' labels' j
  | _, _ => []
  end.

End Rational.

(** Exact [float64]: a rational, or NaN.  The operations are those of the
    rationals; they answer NaN when an operand is NaN and for a division by
    zero (in the loop the only zero divisor is the count of an empty
    selection, whose sum is zero), and no comparison with a NaN holds.
    Without rounding the nearest centroid by Euclidean distance is the
    nearest by squared Euclidean distance (SciPy's ['sqeuclidean']), which
    stays within the rationals: the exact loop is run with [sqeuclidean]
    for [metric]. *)
Module Exact.

Definition lift2 (f : Q -> Q -> Q) (a b : option Q) : option Q :=
  match a, b with
  | Some u, Some v => Some (f u v)
  | _, _ => None
  end.

#[export] Instance exact : Scalar (option Q) := {|
  s_zero := Some 0%Q;
  s_add := lift2 Qplus;
  s_sub := lift2 Qminus;
  s_mul := lift2 Qmult;
  s_div := fun a b =>
    match a, b with
    | Some u, Some v => if Qeq_bool v 0 then None else Some (u / v)%Q
    | _, _ => None
    end;
  s_of_nat := fun n => Some (inject_Z (Z.of_nat n));
  s_leb := fun a b =>
    match a, b with
    | Some u, Some v => Qle_bool u v
    | _, _ => false
    end;
  s_isnan := fun a => match a with Some _ => false | None => true end
|}.

(** A point and a centroid with rational coordinates. *)
Definition exactly (p : point Q) : point (option Q) :=
  (Some (fst p), Some (snd p)).

Definition exactly_row (c : row Q) : row (option Q) := map Some c.

(** Every centroid index has at least one member. *)
Definition no_empty_cluster (labels : list nat)
    (centroids : list (row (option Q))) : Prop :=
  forall j, j < length centroids -> In j labels.

(** Four points on a line and two starting centroids. *)
Definition line_points : list (point Q) := [(0, 0); (1, 0); (2, 0); (10, 0)]%Q.

Definition line_centroids : list (row (option Q)) :=
  [[Some 0; Some 0]; [Some 1; Some 0]]%Q.

End Exact.

(** ** The cells around the loop *)

(** What the other cells can raise: the loop's [ValueError], the
    [IndexError] of an integer index out of bounds and the [KeyError] of a
    missing column. *)
Inductive cell_exn : Type :=
| FromLoop (e : exn)
| IndexError
| KeyError.

Definition attempt (A : Type) : Type := (cell_exn + A)%type.

Definition lift {A : Type} (m : result A) : attempt A :=
  match m with
  | Ok a => inr a
  | Raise e => inl (FromLoop e)
  end.

Section Cells.

Context {T : Type} {SC : Scalar T}.

(** *** cell 7: [x, y = np.random.uniform(0, 10, 50).reshape(2, 25)] *)

(** The rows of a C-ordered array: [c] elements each, in order. *)
Fixpoint rows_of (r c : nat) (a : list T) : list (list T) :=
  match r with
  | 0 => []
  | S r' => firstn c a :: rows_of r' c (skipn c a)
  end.

(** [a.reshape(r, c)]: [ValueError] unless the array has [r * c] elements. *)
Definition reshape (a : list T) (r c : nat) : result (list (list T)) :=
  if Nat.eqb (length a) (r * c) then Ok (rows_of r c a) else Raise ValueError.

(** [x, y = rows]: [ValueError] unless there are exactly two rows. *)
Definition unpack2 (rows : list (list T)) : result (list T * list T) :=
  match rows with
  | [x; y] => Ok (x, y)
  | _ => Raise ValueError
  end.

(** Cell 7 on the array that [np.random.uniform] drew. *)
Definition cell7 (draw : list T) : result (list T * list T) :=
  rows <- reshape draw 2 25 ;; unpack2 rows.

(** *** cell 9: [centroids = (3, 3), (3, 7), (7, 3), (7, 7)] *)

Definition cell9 : list (row T) :=
  [[s_of_nat 3; s_of_nat 3]; [s_of_nat 3; s_of_nat 7];
   [s_of_nat 7; s_of_nat 3]; [s_of_nat 7; s_of_nat 7]].

(** *** cells 10, 11, 16, 19, 22 and 25: [np.transpose] *)

(** The rows form a two-dimensional array. *)
Definition rectangular (A : list (list T)) : bool :=
  match A with
  | [] => true
  | r :: A' => forallb (fun r' => Nat.eqb (length r') (length r)) A'
  end.

(** [np.transpose(A)] for a sequence of rows: the columns, in order;
    [ValueError] for rows of different lengths. *)
Definition transpose (A : list (list T)) : result (list (list T)) :=
  if rectangular A then
    Ok (match A with
        | [] => []
        | r :: _ => map (fun i => column i A) (seq 0 (length r))
        end)
  else Raise ValueError.

(** Cell 25: the array [kmeans.fit] is given, [np.transpose((x,y))]. *)
Definition cell25_input (x y : list T) : result (list (list T)) :=
  transpose [x; y].

(** Cells 7 to 21 in order, on the array that was drawn: the record of
    cell 21's loop. *)
Definition notebook (metric : point T -> point T -> T) (draw : list T) :
    result (list (list nat * list (row T)) * option exn) :=
  xy <- cell7 draw ;;
  let points := combine (fst xy) (snd xy) in
  let centroids := cell9 in
  distances <- cell13 metric centroids points ;;
  labels <- cell15 distances ;;
  let new_centroids := cell18 points labels centroids in
  Ok (cell21 metric points new_centroids).

End Cells.

(** *** cells 16, 19 and 22: [np.array(list('rgbc'))[labels]] *)

(** [a[idx]] for an array of non-negative integers [idx]: one element per
    index, [IndexError] as soon as an index is out of bounds. *)
Fixpoint take {A : Type} (a : list A) (idx : list nat) : attempt (list A) :=
  match idx with
  | [] => inr []
  | i :: idx' =>
      match nth_error a i, take a idx' with
      | Some v, inr vs => inr (v :: vs)
      | None, _ => inl IndexError
      | _, inl e => inl e
      end
  end.

Definition rgbc : list Ascii.ascii := ["r"; "g"; "b"; "c"]%char.

(** The colour of every point. *)
Definition point_colours (labels : list nat) : attempt (list Ascii.ascii) :=
  take rgbc labels.

(** *** cells 32 and 33: the wine table *)

(** A data frame: its columns in order, each with its name. *)
Definition frame (V : Type) : Type := list (String.string * list V).

(** [df.columns = names]: [ValueError] unless there is one name per
    column. *)
Definition set_columns {V : Type} (names : list String.string) (df : frame V) :
    result (frame V) :=
  if Nat.eqb (length names) (length df)
  then Ok (combine names (map snd df))
  else Raise ValueError.

(** [df.pop(key)]: the columns of that name, and the frame without them;
    [KeyError] when no column has the name. *)
Definition pop {V : Type} (key : String.string) (df : frame V) :
    attempt (list (list V) * frame V) :=
  match filter (fun c => String.eqb (fst c) key) df with
  | [] => inl KeyError
  | found =>
      inr (map snd found,
           filter (fun c => negb (String.eqb (fst c) key)) df)
  end.

Definition attributes : list String.string :=
  ["Grape"; "Alcohol"; "Malic acid"; "Ash"; "Alcalinity of ash";
   "Magnesium"; "Total phenols"; "Flavanoids"; "Nonflavanoid phenols";
   "Proanthocyanins"; "Color intensity"; "Hue";
   "OD280/OD315 of diluted wines"; "Proline"]%string.

(** Cells 32 and 33 on the table that was read: [wine] with its new column
    names, [X] without the grape column, and [y]. *)
Definition cell32_33 {V : Type} (table : frame V) :
    attempt (frame V * frame V * list (list V)) :=
  match lift (set_columns attributes table) with
  | inl e => inl e
  | inr wine =>
      let X := wine in
      match pop "Grape"%string X with
      | inl e => inl e
      | inr (y, X') => inr (wine, X', y)
      end
  end.

(** *** cell 43: the cluster column *)

(** [col[mask] = value] for a mask of the length of the column. *)
Fixpoint assign_where (mask : list bool) (value : nat) (col : list nat) :
    list nat :=
  match col, mask with
  | v :: col', m :: mask' =>
      (if m then value else v) :: assign_where mask' value col'
  | _, _ => []
  end.

(** [wine['Cluster'] = labels_] and then
    [wine.loc[labels_ == 0, 'Cluster'] = 3]. *)
Definition cell43_cluster (labels_ : list nat) : list nat :=
  let Cluster := labels_ in
  assign_where (labels_eq labels_ 0) 3 Cluster.

(** ** Ties in the assignment step *)

(** The statements about ties speak of the distances themselves: the
    distance from the [j]-th centroid to the point [p] is
    [euclidean c p] for the [j]-th row [c] of [centroids]. *)
Module Ties.
Import F64.

(** Centroid [j] is at minimum distance from [p]: its distance is a number
    and no centroid has a smaller one. *)
Definition at_minimum_distance
    (centroids : list (point float)) (p : point float) (j : nat) : Prop :=
  exists c, nth_error centroids j = Some c /\
            PrimFloat.is_nan (euclidean c p) = false /\
            forall k c', nth_error centroids k = Some c' ->
                         PrimFloat.is_nan (euclidean c' p) = false ->
                         PrimFloat.leb (euclidean c p) (euclidean c' p) = true.

(** Centroids [j1] and [j2] are equidistant from [p], by the equality of
    floating-point numbers. *)
Definition equidistant
    (centroids : list (point float)) (p : point float) (j1 j2 : nat) : Prop :=
  exists c1 c2, nth_error centroids j1 = Some c1 /\
                nth_error centroids j2 = Some c2 /\
                PrimFloat.eqb (euclidean c1 p) (euclidean c2 p) = true.

(** The tie-break of the specification for one assignment step: a point
    with two or more centroids at equal minimum distance is assigned to the
    one of them with the lowest index. *)
Definition lowest_tie_wins (points centroids : list (point float))
    (labels : list nat) : Prop :=
  forall i p j1 j2,
    nth_error points i = Some p -> j1 <> j2 ->
    equidistant centroids p j1 j2 ->
    at_minimum_distance centroids p j1 ->
    at_minimum_distance centroids p j2 ->
    exists l, nth_error labels i = Some l /\
              at_minimum_distance centroids p l /\
              forall j, at_minimum_distance centroids p j -> l <= j.

(** The same of every assignment step of a run: pass [t + 1] computes its
    labels from the centroids that pass [t] left, the first pass from the
    initial ones. *)
Definition every_step_breaks_ties_low (points : list (point float))
    (centroids : list (row float))
    (record : list (list nat * list (row float))) : Prop :=
  forall t cs ps labels,
    nth_error (centroids :: map snd record) t = Some cs ->
    nth_error (map fst record) t = Some labels ->
    as_points cs = Some ps ->
    lowest_tie_wins points ps labels.

(** Three points on a line, the middle one halfway between the first two
    centroids; the third centroid is nearest to none of them. *)
Definition tied_points : list (point float) :=
  [(-5, 0); (5, 0); (10, 0)]%float.

Definition tied_centroids : list (row float) :=
  [[0; 0]; [10; 0]; [100; 100]]%float.

End Ties.

(** ** The kernel's variables *)

(** Cell 21 runs in a kernel in which the earlier cells have left their
    variables: [x] and [y] of cell 7, [centroids] of cell 9, [distances] of
    cell 13, [labels] of cell 15, [new_centroids] of cell 18, and the state
    of NumPy's random generator that cell 7 drew from.  [iterations] is
    bound by cell 21 itself or by an earlier run of it; the cell assigns it
    before it reads it.  The module follows cell 21 statement by statement
    as a transformation of these variables. *)
Module Kernel.

Section Namespace.

Context {T : Type} {SC : Scalar T}.
Variable R : Type.

Record namespace : Type := {
  x : list T;
  y : list T;
  centroids : list (row T);
  distances : list (list T);
  labels : list nat;
  new_centroids : list (row T);
  iterations : nat;
  random_state : R
}.

(** The four assignments of cell 21. *)
Definition assign_centroids (v : list (row T)) (e : namespace) : namespace :=
  {| x := x e; y := y e; centroids := v; distances := distances e;
     labels := labels e; new_centroids := new_centroids e;
     iterations := iterations e; random_state := random_state e |}.

Definition assign_iterations (v : nat) (e : namespace) : namespace :=
  {| x := x e; y := y e; centroids := centroids e; distances := distances e;
     labels := labels e; new_centroids := new_centroids e;
     iterations := v; random_state := random_state e |}.

Definition assign_distances (v : list (list T)) (e : namespace) : namespace :=
  {| x := x e; y := y e; centroids := centroids e; distances := v;
     labels := labels e; new_centroids := new_centroids e;
     iterations := iterations e; random_state := random_state e |}.

Definition assign_labels (v : list nat) (e : namespace) : namespace :=
  {| x := x e; y := y e; centroids := centroids e; distances := distances e;
     labels := v; new_centroids := new_centroids e;
     iterations := iterations e; random_state := random_state e |}.

(** [a[mask]]: [IndexError] unless the mask has the length of the array. *)
Definition getitem (a : list T) (mask : list bool) : attempt (list T) :=
  if Nat.eqb (length mask) (length a) then inr (boolean_index a mask)
  else inl IndexError.

(** [(x[labels==i].mean(), y[labels==i].mean())] *)
Definition member_means (e : namespace) (i : nat) : attempt (row T) :=
  match getitem (x e) (labels_eq (labels e) i) with
  | inl ex => inl ex
  | inr xi =>
      match getitem (y e) (labels_eq (labels e) i) with
      | inl ex => inl ex
      | inr yi => inr [mean xi; mean yi]
      end
  end.

(** [[f(i) for i in l]]: the elements in order, up to the first exception. *)
Fixpoint comprehension {A B : Type} (f : A -> attempt B) (l : list A) :
    attempt (list B) :=
  match l with
  | [] => inr []
  | a :: l' =>
      match f a with
      | inl ex => inl ex
      | inr b =>
          match comprehension f l' with
          | inl ex => inl ex
          | inr bs => inr (b :: bs)
          end
      end
  end.

(** The body of the loop, statement by statement: the namespace it leaves
    and the exception that interrupted it, if one did. *)
Definition body (metric : point T -> point T -> T) (e : namespace) :
    namespace * option cell_exn :=
  match cdist metric (centroids e) (combine (x e) (y e)) with
  | Raise ex => (e, Some (FromLoop ex))
  | Ok D =>
      let e := assign_distances D e in
      match argmin_axis0 (distances e) with
      | Raise ex => (e, Some (FromLoop ex))
      | Ok l =>
          let e := assign_labels l e in
          match comprehension (member_means e)
                              (seq 0 (length (centroids e))) with
          | inl ex => (e, Some ex)
          | inr cs => (assign_centroids cs e, None)
          end
      end
  end.

(** What a run of the cell leaves: the values of [labels] and [centroids]
    at the end of every completed pass, the namespace, and the exception
    that ended the cell, if one did. *)
Record run : Type := {
  record : list (list nat * list (row T));
  namespace_left : namespace;
  raised : option cell_exn
}.

Fixpoint for_range (metric : point T -> point T -> T) (n : nat)
    (e : namespace) : run :=
  match n with
  | 0 => {| record := []; namespace_left := e; raised := None |}
  | S n' =>
      match body metric e with
      | (e', Some ex) =>
          {| record := []; namespace_left := e'; raised := Some ex |}
      | (e', None) =>
          let r := for_range metric n' e' in
          {| record := (labels e', centroids e') :: record r;
             namespace_left := namespace_left r;
             raised := raised r |}
      end
  end.

(** Cell 21 with [iterations = N]; the notebook has [N = 20]. *)
Definition run_cell21 (metric : point T -> point T -> T) (N : nat)
    (e : namespace) : run :=
  let e := assign_centroids (new_centroids e) e in
  let e := assign_iterations N e in
  for_range metric (iterations e) e.

End Namespace.

Arguments namespace : clear implicits.
Arguments run : clear implicits.

(** Two kernels before cell 21 that hold the same [x], [y] and
    [new_centroids] and differ in every other variable. *)
Definition kernel_after_cell18 : namespace float nat :=
  {| x := [0; 0; 10; 10]%float; y := [0; 1; 0; 1]%float;
     centroids := [[1; 1]; [9; 1]]%float;
     distances := [];
     labels := [0; 0; 1; 1];
     new_centroids := [[0; 0.5]; [10; 0.5]]%float;
     iterations := 0;
     random_state := 0 |}.

Definition kernel_after_a_run : namespace float nat :=
  {| x := [0; 0; 10; 10]%float; y := [0; 1; 0; 1]%float;
     centroids := [[5; 5]]%float;
     distances := [[1; 2; 3; 4]]%float;
     labels := [1; 0; 1; 0];
     new_centroids := [[0; 0.5]; [10; 0.5]]%float;
     iterations := 20;
     random_state := 1 |}.

End Kernel.

(** * Properties of the loop, for any arithmetic *)

Section Loop.

Context {T : Type} {SC : Scalar T}.
Variable metric : point T -> point T -> T.

Lemma as_points_length (cs : list (row T)) (ps : list (point T)) :
  as_points cs = Some ps -> length ps = length cs.
Proof.
  revert ps; induction cs as [|c cs IH]; intros ps H; simpl in H.
  - now inversion H.
  - destruct (as_point c), (as_points cs); try discriminate.
    inversion H; subst; simpl; f_equal; now apply IH.
Qed.

Lemma as_point_some (c : row T) :
  (exists p, as_point c = Some p) <-> length c = 2.
Proof.
  split.
  - intros [p H]. destruct c as [|a [|b [|? ?]]]; simpl in H; now try discriminate.
  - intros H. destruct c as [|a [|b [|? ?]]]; simpl in H; try discriminate.
    now exists (a, b).
Qed.

Lemma as_points_some (cs : list (row T)) :
  (exists ps, as_points cs = Some ps) <->
  forallb (fun c => Nat.eqb (length c) 2) cs = true.
Proof.
  induction cs as [|c cs IH]; simpl.
  - split; [reflexivity | now exists []].
  - rewrite andb_true_iff, Nat.eqb_eq, <- IH, <- as_point_some.
    split.
    + intros [ps H]. destruct (as_point c) as [p|]; [|discriminate].
      destruct (as_points cs) as [ps'|]; [|discriminate].
      split; eauto.
    + intros [[p Hp] [ps Hps]]. rewrite Hp, Hps. eauto.
Qed.

(** [cdist] succeeds exactly on well-shaped arguments. *)
Lemma cdist_ok_iff (cs : list (row T)) (pts : list (point T)) :
  (exists D, cdist metric cs pts = Ok D) <-> shapes_ok pts cs = true.
Proof.
  unfold shapes_ok, cdist.
  rewrite !andb_true_iff, !negb_true_iff, !Nat.eqb_neq, <- as_points_some.
  destruct cs as [|c cs]; simpl length.
  - split; [intros [D H]; discriminate | intros [[_ H] _]; now elim H].
  - destruct pts as [|p pts]; simpl length.
    + split; [intros [D H]; discriminate | intros [[H _] _]; now elim H].
    + destruct (as_points (c :: cs)) as [ps|].
      * split; eauto.
      * split; [intros [D H]; discriminate | intros [_ [ps H]]; discriminate].
Qed.

Lemma cdist_ok (cs : list (row T)) (pts : list (point T)) (D : list (list T)) :
  cdist metric cs pts = Ok D ->
  exists ps, as_points cs = Some ps /\ ps <> [] /\ pts <> [] /\
             D = map (fun c => map (fun p => metric c p) pts) ps.
Proof.
  unfold cdist. intros H.
  destruct cs as [|c cs]; [discriminate|].
  destruct pts as [|p pts]; [discriminate|].
  destruct (as_points (c :: cs)) as [ps|] eqn:E; [|discriminate].
  exists ps. inversion H; subst. repeat split; try discriminate.
  apply as_points_length in E. destruct ps; [discriminate | discriminate].
Qed.

Lemma sequence_map_ok {A B : Type} (f : A -> B) (l : list A) :
  sequence (map (fun a => Ok (f a)) l) = Ok (map f l).
Proof.
  induction l as [|a l IH]; simpl; [reflexivity|]. now rewrite IH.
Qed.

Lemma column_cdist (ps : list (point T)) (pts : list (point T)) (i : nat)
    (d : point T) :
  i < length pts ->
  column i (map (fun c => map (fun p => metric c p) pts) ps)
  = map (fun c => metric c (nth i pts d)) ps.
Proof.
  intros Hi. unfold column. rewrite map_map. apply map_ext. intros c.
  rewrite (nth_indep _ s_zero (metric c d)) by now rewrite length_map.
  apply (map_nth (fun p => metric c p)).
Qed.

Lemma argmin_column (ps : list (point T)) (p : point T) :
  ps <> [] ->
  argmin (map (fun c => metric c p) ps) = Ok (nearest metric ps p).
Proof.
  destruct ps as [|c ps]; [congruence|]. reflexivity.
Qed.

Lemma map_seq_nth {A B : Type} (f : A -> B) (l : list A) (d : A) :
  map (fun i => f (nth i l d)) (seq 0 (length l)) = map f l.
Proof.
  rewrite <- (map_map (fun i => nth i l d) f). f_equal.
  apply nth_ext with (d := d) (d' := d).
  - now rewrite length_map, length_seq.
  - intros n Hn. rewrite length_map, length_seq in Hn.
    rewrite (nth_indep _ d (nth (length l) l d)) by now rewrite length_map, length_seq.
    rewrite (map_nth (fun i => nth i l d)), seq_nth by assumption. reflexivity.
Qed.

(** On the matrix [cdist] builds, [argmin(axis=0)] is the nearest centroid
    of every point. *)
Lemma argmin_axis0_cdist (ps : list (point T)) (pts : list (point T)) :
  ps <> [] ->
  argmin_axis0 (map (fun c => map (fun p => metric c p) pts) ps)
  = Ok (map (nearest metric ps) pts).
Proof.
  intros Hps. destruct ps as [|c ps]; [congruence|].
  unfold argmin_axis0. cbn [map]. rewrite length_map.
  destruct pts as [|p0 pts]; [reflexivity|].
  rewrite <- (map_seq_nth (nearest metric (c :: ps)) (p0 :: pts) p0).
  rewrite <- sequence_map_ok. f_equal.
  apply map_ext_in. intros i Hi. apply in_seq in Hi.
  change (map (fun p => metric c p) (p0 :: pts)
          :: map (fun c0 => map (fun p => metric c0 p) (p0 :: pts)) ps)
    with (map (fun c0 => map (fun p => metric c0 p) (p0 :: pts)) (c :: ps)).
  rewrite (column_cdist (c :: ps) (p0 :: pts) p0) by lia.
  now apply argmin_column.
Qed.

(** The body of the loop in closed form. *)
Lemma loop_body_ok (pts : list (point T)) (cs : list (row T))
    (labels : list nat) (cs' : list (row T)) :
  loop_body metric pts cs = Ok (labels, cs') ->
  exists ps, as_points cs = Some ps /\ ps <> [] /\ pts <> [] /\
             labels = map (nearest metric ps) pts /\
             cs' = new_centroids pts labels cs.
Proof.
  unfold loop_body. intros H.
  destruct (cdist metric cs pts) as [D|e] eqn:ED; [|discriminate].
  apply cdist_ok in ED. destruct ED as (ps & Eps & Hps & Hpts & ->).
  simpl in H. rewrite (argmin_axis0_cdist pts Hps) in H. simpl in H.
  inversion H; subst. exists ps. repeat split; assumption.
Qed.

Lemma loop_body_shapes (pts : list (point T)) (cs : list (row T)) :
  (exists r, loop_body metric pts cs = Ok r) <-> shapes_ok pts cs = true.
Proof.
  rewrite <- cdist_ok_iff. unfold loop_body. split.
  - intros [r H]. destruct (cdist metric cs pts) as [D|e]; [eauto | discriminate].
  - intros [D H]. rewrite H. destruct (cdist_ok _ _ H) as (ps & _ & Hps & _ & ->).
    simpl. rewrite (argmin_axis0_cdist pts Hps). simpl. eauto.
Qed.

End Loop.

Section Run.

Context {T : Type} {SC : Scalar T}.
Variable metric : point T -> point T -> T.

Lemma argmin_scan_bound (l : list T) (mp : T) (min_ind i : nat) :
  min_ind < i -> argmin_scan mp min_ind i l < i + length l.
Proof.
  revert mp min_ind i. induction l as [|v l IH]; intros mp min_ind i Hlt; simpl.
  - lia.
  - destruct (negb (s_leb mp v)).
    + destruct (s_isnan v); [lia|].
      specialize (IH v i (S i)). lia.
    + specialize (IH mp min_ind (S i)). lia.
Qed.

Lemma nearest_bound (ps : list (point T)) (p : point T) :
  ps <> [] -> nearest metric ps p < length ps.
Proof.
  destruct ps as [|c ps]; [congruence|]. intros _. simpl.
  destruct (s_isnan (metric c p)); [lia|].
  pose proof (@argmin_scan_bound (map (fun c' => metric c' p) ps) (metric c p) 0 1).
  rewrite length_map in H. lia.
Qed.

Lemma new_centroids_length (pts : list (point T)) (labels : list nat)
    (cs : list (row T)) :
  length (new_centroids pts labels cs) = length cs.
Proof. unfold new_centroids. now rewrite length_map, length_seq. Qed.

Lemma new_centroids_rows (pts : list (point T)) (labels : list nat)
    (cs : list (row T)) :
  forallb (fun c => Nat.eqb (length c) 2) (new_centroids pts labels cs) = true.
Proof.
  unfold new_centroids. apply forallb_forall. intros c Hc.
  apply in_map_iff in Hc. destruct Hc as (i & <- & _). reflexivity.
Qed.

(** The update reads [centroids] only for its length. *)
Lemma new_centroids_same_length (pts : list (point T)) (labels : list nat)
    (cs cs' : list (row T)) :
  length cs = length cs' ->
  new_centroids pts labels cs = new_centroids pts labels cs'.
Proof. unfold new_centroids. now intros ->. Qed.

(** What one pass establishes. *)
Lemma loop_body_post (pts : list (point T)) (cs : list (row T))
    (labels : list nat) (cs' : list (row T)) :
  loop_body metric pts cs = Ok (labels, cs') ->
  length labels = length pts /\
  Forall (fun j => j < length cs) labels /\
  length cs' = length cs /\
  shapes_ok pts cs' = true /\
  cs' = new_centroids pts labels cs.
Proof.
  intros H.
  assert (Hs : shapes_ok pts cs = true) by (apply (loop_body_shapes metric); eauto).
  apply loop_body_ok in H. destruct H as (ps & Eps & Hps & Hpts & -> & ->).
  pose proof (as_points_length _ Eps) as Hlen.
  repeat split.
  - now rewrite length_map.
  - apply Forall_forall. intros j Hj. apply in_map_iff in Hj.
    destruct Hj as (p & <- & _). rewrite <- Hlen. now apply nearest_bound.
  - apply new_centroids_length.
  - unfold shapes_ok in *. rewrite new_centroids_length, new_centroids_rows.
    apply andb_true_iff in Hs. destruct Hs as [Hs _]. now rewrite Hs.
Qed.

Lemma for_loop_raise (n : nat) (pts : list (point T)) (cs : list (row T))
    (e : exn) :
  loop_body metric pts cs = Raise e ->
  for_loop metric (S n) pts cs = ([], Some e).
Proof. intros H. simpl. now rewrite H. Qed.

Lemma for_loop_step (n : nat) (pts : list (point T)) (cs : list (row T))
    (labels : list nat) (cs' : list (row T)) :
  loop_body metric pts cs = Ok (labels, cs') ->
  for_loop metric (S n) pts cs
  = ((labels, cs') :: fst (for_loop metric n pts cs'),
     snd (for_loop metric n pts cs')).
Proof.
  intros H. simpl. rewrite H. now destruct (for_loop metric n pts cs').
Qed.

Lemma loop_body_raises (pts : list (point T)) (cs : list (row T)) :
  shapes_ok pts cs = false -> loop_body metric pts cs = Raise ValueError.
Proof.
  intros H. destruct (loop_body metric pts cs) as [r|[]] eqn:E; [|reflexivity].
  assert (shapes_ok pts cs = true) by (apply (loop_body_shapes metric); eauto).
  congruence.
Qed.

(** On well-shaped input no pass raises and all [n] passes complete. *)
Lemma for_loop_completes (n : nat) (pts : list (point T)) (cs : list (row T)) :
  shapes_ok pts cs = true ->
  snd (for_loop metric n pts cs) = None /\
  length (fst (for_loop metric n pts cs)) = n.
Proof.
  revert cs. induction n as [|n IH]; intros cs Hs; [now split|].
  destruct (proj2 (loop_body_shapes metric pts cs) Hs) as [[labels cs'] E].
  rewrite (for_loop_step n _ _ E). simpl.
  destruct (loop_body_post _ _ E) as (_ & _ & _ & Hs' & _).
  destruct (IH cs' Hs') as [-> ->]. now split.
Qed.

Lemma for_loop_length_le (n : nat) (pts : list (point T)) (cs : list (row T)) :
  length (fst (for_loop metric n pts cs)) <= n.
Proof.
  revert cs. induction n as [|n IH]; intros cs; [simpl; lia|].
  destruct (loop_body metric pts cs) as [[labels cs']|e] eqn:E.
  - rewrite (for_loop_step n _ _ E). simpl. specialize (IH cs'). lia.
  - rewrite (for_loop_raise n _ _ E). simpl. lia.
Qed.

(** The record of the loop is the orbit of the body. *)
Lemma trace_head (n : nat) (pts : list (point T)) (cs : list (row T))
    (l : list nat) (c : list (row T)) :
  nth_error (fst (for_loop metric n pts cs)) 0 = Some (l, c) ->
  loop_body metric pts cs = Ok (l, c).
Proof.
  destruct n as [|n]; [discriminate|].
  destruct (loop_body metric pts cs) as [[labels cs']|e] eqn:E.
  - rewrite (for_loop_step n _ _ E). simpl. congruence.
  - rewrite (for_loop_raise n _ _ E). discriminate.
Qed.

Lemma trace_step (n : nat) (pts : list (point T)) (cs : list (row T)) (t : nat)
    (l1 l2 : list nat) (c1 c2 : list (row T)) :
  nth_error (fst (for_loop metric n pts cs)) t = Some (l1, c1) ->
  nth_error (fst (for_loop metric n pts cs)) (S t) = Some (l2, c2) ->
  loop_body metric pts c1 = Ok (l2, c2).
Proof.
  revert cs t. induction n as [|n IH]; intros cs t H1 H2; [destruct t; discriminate|].
  destruct (loop_body metric pts cs) as [[labels cs']|e] eqn:E.
  - rewrite (for_loop_step n _ _ E) in H1, H2. simpl fst in H1, H2.
    destruct t as [|t].
    + simpl in H1. inversion H1; subst. simpl in H2.
      now apply trace_head with (n := n).
    + simpl in H1, H2. now apply (IH cs' t).
  - rewrite (for_loop_raise n _ _ E) in H1. destruct t; discriminate.
Qed.

Lemma trace_tail (n : nat) (pts : list (point T)) (cs : list (row T)) (t : nat)
    (l : list nat) (c : list (row T)) :
  nth_error (fst (for_loop metric n pts cs)) t = Some (l, c) ->
  forall u, nth_error (fst (for_loop metric n pts cs)) (S t + u)
            = nth_error (fst (for_loop metric (n - S t) pts c)) u.
Proof.
  revert cs t. induction n as [|n IH]; intros cs t H u; [destruct t; discriminate|].
  destruct (loop_body metric pts cs) as [[labels cs']|e] eqn:E.
  - rewrite (for_loop_step n _ _ E) in *. simpl fst in *.
    destruct t as [|t].
    + simpl in H. inversion H; subst. simpl. now rewrite Nat.sub_0_r.
    + simpl in H. simpl. now apply IH.
  - rewrite (for_loop_raise n _ _ E) in H. destruct t; discriminate.
Qed.

(** From a state the body maps to itself, every pass repeats it. *)
Lemma for_loop_fixed (n : nat) (pts : list (point T)) (l : list nat)
    (c : list (row T)) :
  loop_body metric pts c = Ok (l, c) ->
  for_loop metric n pts c = (repeat (l, c) n, None).
Proof.
  intros H. induction n as [|n IH]; [reflexivity|].
  rewrite (for_loop_step n _ _ H), IH. reflexivity.
Qed.

Lemma stable_is_fixed (pts : list (point T)) (c0 c1 c2 : list (row T))
    (l : list nat) :
  loop_body metric pts c0 = Ok (l, c1) ->
  loop_body metric pts c1 = Ok (l, c2) ->
  c2 = c1.
Proof.
  intros H0 H1.
  destruct (loop_body_post _ _ H0) as (_ & _ & Hlen & _ & ->).
  destruct (loop_body_post _ _ H1) as (_ & _ & _ & _ & ->).
  apply new_centroids_same_length. now rewrite new_centroids_length.
Qed.

(** Every recorded state carries one in-range label per point and keeps the
    number of centroids and their shape. *)
Lemma trace_invariant (n : nat) (pts : list (point T)) (cs : list (row T))
    (l : list nat) (c : list (row T)) :
  In (l, c) (fst (for_loop metric n pts cs)) ->
  length l = length pts /\
  Forall (fun j => j < length cs) l /\
  length c = length cs /\
  shapes_ok pts c = true.
Proof.
  revert cs. induction n as [|n IH]; intros cs H; [contradiction|].
  destruct (loop_body metric pts cs) as [[labels cs']|e] eqn:E.
  - rewrite (for_loop_step n _ _ E) in H. simpl in H.
    destruct (loop_body_post _ _ E) as (H1 & H2 & H3 & H4 & _).
    destruct H as [H|H].
    + inversion H; subst. auto.
    + destruct (IH cs' H) as (I1 & I2 & I3 & I4).
      rewrite H3 in I2, I3. auto.
  - rewrite (for_loop_raise n _ _ E) in H. contradiction.
Qed.

(** Every recorded state is the result of the body on some centroids. *)
Lemma trace_origin (n : nat) (pts : list (point T)) (cs : list (row T)) (t : nat)
    (l : list nat) (c : list (row T)) :
  nth_error (fst (for_loop metric n pts cs)) t = Some (l, c) ->
  exists c0, loop_body metric pts c0 = Ok (l, c).
Proof.
  intros H. destruct t as [|t].
  - exists cs. now apply trace_head with (n := n).
  - destruct (nth_error (fst (for_loop metric n pts cs)) t) as [[l0 c0]|] eqn:E.
    + exists c0. now apply trace_step with (n := n) (cs := cs) (t := t) (l1 := l0).
    + apply nth_error_None in E.
      assert (S t < length (fst (for_loop metric n pts cs)))
        by (apply nth_error_Some; congruence).
      lia.
Qed.

(** C1 (as the loop behaves): on a well-shaped configuration the loop makes
    exactly [N] passes, whether or not the assignment has stopped changing;
    it has no convergence test.  Once a pass computes the assignment of the
    pass before it, every later pass recomputes that same assignment and the
    same centroids. *)
Theorem loop_runs_all_passes_and_repeats_stable_state
    (N : nat) (pts : list (point T)) (cs : list (row T)) :
  shapes_ok pts cs = true ->
  iterations_performed metric N pts cs = N /\
  forall t l c1 c2,
    nth_error (fst (for_loop metric N pts cs)) t = Some (l, c1) ->
    nth_error (fst (for_loop metric N pts cs)) (S t) = Some (l, c2) ->
    forall u, t <= u -> u < N ->
      nth_error (fst (for_loop metric N pts cs)) u = Some (l, c1).
Proof.
  intros Hs. split.
  - unfold iterations_performed. now apply for_loop_completes.
  - intros t l c1 c2 H1 H2 u Htu HuN.
    destruct (Nat.eq_dec u t) as [->|Hne]; [assumption|].
    destruct (trace_origin _ _ _ _ H1) as [c0 H0].
    pose proof (trace_step _ _ _ _ H1 H2) as Hb.
    pose proof (stable_is_fixed _ _ H0 Hb) as ->.
    replace u with (S t + (u - S t)) by lia.
    rewrite (trace_tail _ _ _ _ H1), (for_loop_fixed (N - S t) _ Hb). simpl.
    apply nth_error_repeat. lia.
Qed.

(** C3 (as the loop behaves): on a well-shaped configuration no call inside
    the loop raises: the loop ends without an exception after [N] passes,
    and the body succeeds from the starting centroids and from every state
    the loop reaches. *)
Theorem valid_run_raises_nothing
    (N : nat) (pts : list (point T)) (cs : list (row T)) :
  shapes_ok pts cs = true ->
  snd (for_loop metric N pts cs) = None /\
  forall c, In c (cs :: map snd (fst (for_loop metric N pts cs))) ->
            exists r, loop_body metric pts c = Ok r.
Proof.
  intros Hs. split; [now apply for_loop_completes|].
  intros c [<-|Hc]; apply (loop_body_shapes metric); [assumption|].
  apply in_map_iff in Hc. destruct Hc as ([l c'] & <- & Hin).
  now destruct (trace_invariant _ _ _ _ _ Hin) as (_ & _ & _ & H).
Qed.

Lemma shapes_ok_false (pts : list (point T)) (cs : list (row T)) :
  shapes_ok pts cs = false <->
  length cs = 0 \/ length pts = 0 \/ exists c, In c cs /\ length c <> 2.
Proof.
  unfold shapes_ok. rewrite !andb_false_iff, !negb_false_iff, !Nat.eqb_eq.
  split.
  - intros [[H|H]|H]; auto. right; right.
    induction cs as [|c cs IH]; [discriminate|]. simpl in H.
    apply andb_false_iff in H. destruct H as [H|H].
    + apply Nat.eqb_neq in H. exists c; simpl; auto.
    + destruct (IH H) as (c' & Hin & Hc'). exists c'; simpl; auto.
  - intros [H|[H|(c & Hin & Hc)]]; auto. right.
    destruct (forallb (fun c0 => Nat.eqb (length c0) 2) cs) eqn:E; [|reflexivity].
    rewrite forallb_forall in E. apply E, Nat.eqb_eq in Hin. contradiction.
Qed.

(** C5 (as the loop behaves): nothing is validated ahead of the loop and
    there is no configuration error.  The loop ends with an exception, the
    [ValueError] of [cdist], exactly when at least one pass is asked for and
    there is no centroid, or no point, or a centroid that does not have two
    coordinates; the exception comes from the first call, so no pass
    completes.  More centroids than points, or zero passes, raise nothing. *)
Theorem loop_raises_iff_cdist_rejects
    (N : nat) (pts : list (point T)) (cs : list (row T)) :
  (snd (for_loop metric N pts cs) = Some ValueError <->
   1 <= N /\
   (length cs = 0 \/ length pts = 0 \/ exists c, In c cs /\ length c <> 2)) /\
  (snd (for_loop metric N pts cs) = None \/
   for_loop metric N pts cs = ([], Some ValueError)).
Proof.
  rewrite <- shapes_ok_false.
  destruct (shapes_ok pts cs) eqn:Hs.
  - destruct (for_loop_completes N pts cs Hs) as [He _]. rewrite He.
    split; [|now left]. split; [discriminate | intros [_ ?]; discriminate].
  - destruct N as [|N].
    + simpl. split; [|now left]. split; [discriminate | intros [? _]; lia].
    + rewrite (for_loop_raise N _ _ (loop_body_raises _ _ Hs)). simpl.
      split; [|now right]. split; intros; [split; [lia | reflexivity] | reflexivity].
Qed.

(** C6: the loop always returns, and the number of passes through its body
    that it has completed is at most [N]. *)
Theorem loop_terminates_within_N
    (N : nat) (pts : list (point T)) (cs : list (row T)) :
  exists tr e,
    for_loop metric N pts cs = (tr, e) /\
    iterations_performed metric N pts cs = length tr /\
    length tr <= N.
Proof.
  exists (fst (for_loop metric N pts cs)), (snd (for_loop metric N pts cs)).
  split; [now destruct (for_loop metric N pts cs)|].
  split; [reflexivity | apply for_loop_length_le].
Qed.

(** C9: whatever the loop records after a pass gives every point exactly one
    label (the assignment has one entry per point), every label is the index
    of a centroid, and the number of centroids is the one the loop started
    with. *)
Theorem assignment_total_and_in_range
    (N : nat) (pts : list (point T)) (cs : list (row T))
    (labels : list nat) (centroids : list (row T)) :
  In (labels, centroids) (fst (for_loop metric N pts cs)) ->
  length labels = length pts /\
  (forall i, i < length pts ->
     exists j, nth_error labels i = Some j /\ j < length cs) /\
  length centroids = length cs.
Proof.
  intros H. destruct (trace_invariant _ _ _ _ _ H) as (H1 & H2 & H3 & _).
  repeat split; try assumption.
  intros i Hi. rewrite <- H1 in Hi.
  destruct (nth_error labels i) as [j|] eqn:E.
  - exists j. split; [reflexivity|].
    rewrite Forall_forall in H2. apply H2. eapply nth_error_In; eauto.
  - apply nth_error_None in E. lia.
Qed.

(** C10: one pass of the loop body computes the labels and the centroids
    that cells 13, 15 and 18 compute one after the other, and raises when
    one of them raises. *)
Theorem loop_body_is_the_three_cells
    (centroids : list (row T)) (points : list (point T)) :
  loop_body metric points centroids
  = (distances <- cell13 metric centroids points ;;
     labels <- cell15 distances ;;
     Ok (labels, cell18 points labels centroids)).
Proof. reflexivity. Qed.

(** Cells 13 to 18 followed by cell 21 are twenty-one passes of the body. *)
Lemma notebook_is_twenty_one_passes
    (centroids : list (row T)) (points : list (point T))
    (distances : list (list T)) (labels : list nat) :
  cell13 metric centroids points = Ok distances ->
  cell15 distances = Ok labels ->
  for_loop metric 21 points centroids
  = ((labels, cell18 points labels centroids)
       :: fst (cell21 metric points (cell18 points labels centroids)),
     snd (cell21 metric points (cell18 points labels centroids))).
Proof.
  intros H13 H15. apply for_loop_step.
  unfold cell13, cell15 in *. unfold loop_body.
  rewrite H13. simpl. now rewrite H15.
Qed.

End Run.

(** * The scan of [argmin] under a lawful order *)

Section Argmin.

Context {T : Type} {SC : Scalar T} {SO : ScalarOrder T}.

(** Once the running minimum is below or equal to all that remains, the
    scan keeps its index. *)
Lemma argmin_scan_settled (l : list T) (mp : T) (min_ind i : nat) :
  (forall v, In v l -> s_leb mp v = true) ->
  argmin_scan mp min_ind i l = min_ind.
Proof.
  revert i. induction l as [|v l IH]; intros i H; simpl; [reflexivity|].
  rewrite (H v) by now left. simpl. apply IH. intros w Hw. apply H. now right.
Qed.

Lemma minimum_not_nan (d : list T) (j k : nat) :
  is_minimum d j -> k < length d -> s_isnan (nth k d s_zero) = false.
Proof.
  intros [_ H] Hk. destruct (s_isnan (nth k d s_zero)) eqn:E; [|reflexivity].
  specialize (H k Hk).
  rewrite (s_leb_nan (nth j d s_zero) _ E) in H. discriminate.
Qed.

Lemma nth_app_cons {A : Type} (pre : list A) (v : A) (l : list A) (q : nat)
    (d0 : A) :
  nth (S (length pre) + q) (pre ++ v :: l) d0 = nth q l d0.
Proof.
  rewrite app_nth2 by lia.
  now replace (S (length pre) + q - length pre) with (S q) by lia.
Qed.

(** The scan, started anywhere before a minimum of the column, ends at or
    before that minimum on an entry that is below or equal to it. *)
Lemma argmin_scan_reaches (d : list T) (j : nat) :
  is_minimum d j ->
  forall l pre mp min_ind,
    d = pre ++ l -> min_ind < length pre -> nth min_ind d s_zero = mp ->
    length pre <= j ->
    let r := argmin_scan mp min_ind (length pre) l in
    r <= j /\ s_leb (nth r d s_zero) (nth j d s_zero) = true.
Proof.
  intros Hmin. pose proof Hmin as [Hj Hle].
  induction l as [|v l IH]; intros pre mp min_ind Hd Hmi Hmp Hpre.
  - subst d. rewrite app_nil_r in Hj. lia.
  - assert (Hv : nth (length pre) d s_zero = v)
      by (subst d; now rewrite nth_middle).
    assert (Hlen : length pre < length d)
      by (subst d; rewrite length_app; simpl; lia).
    assert (Hd' : d = (pre ++ [v]) ++ l) by now rewrite <- app_assoc.
    assert (Hlen' : length (pre ++ [v]) = S (length pre))
      by (rewrite length_app; simpl; lia).
    assert (Hnan : s_isnan v = false)
      by (rewrite <- Hv; now apply minimum_not_nan with (j := j)).
    assert (Hrest : forall w, In w l -> s_leb (nth j d s_zero) w = true).
    { intros w Hw. destruct (In_nth _ _ s_zero Hw) as (q & Hq & <-).
      rewrite <- (nth_app_cons pre v l q s_zero), <- Hd.
      apply Hle. rewrite Hd, length_app. simpl. lia. }
    cbn zeta. simpl argmin_scan.
    destruct (Nat.eq_dec (length pre) j) as [Heq|Hne].
    + (* the scan is at the minimum *)
      assert (Hvj : v = nth j d s_zero) by now rewrite <- Heq.
      destruct (s_leb mp v) eqn:E; simpl.
      * rewrite argmin_scan_settled.
        -- split; [lia|]. now rewrite Hmp, <- Hvj.
        -- intros w Hw. apply s_leb_trans with (b := v); [assumption|].
           rewrite Hvj. now apply Hrest.
      * rewrite Hnan, argmin_scan_settled.
        -- split; [lia|]. rewrite Heq. apply Hle. lia.
        -- intros w Hw. rewrite Hvj. now apply Hrest.
    + destruct (s_leb mp v) eqn:E; simpl.
      * specialize (IH (pre ++ [v]) mp min_ind Hd').
        rewrite Hlen' in IH. apply IH; [lia | assumption | lia].
      * rewrite Hnan.
        specialize (IH (pre ++ [v]) v (length pre) Hd').
        rewrite Hlen' in IH. apply IH; [lia | assumption | lia].
Qed.

(** [argmin] returns a minimum of the column whenever the column has one,
    and the lowest index at which a minimum stands. *)
Lemma argmin_lowest_minimum (d : list T) (j l : nat) :
  is_minimum d j -> argmin d = Ok l -> l <= j /\ is_minimum d l.
Proof.
  intros Hmin Hl. pose proof Hmin as [Hj Hle].
  destruct d as [|v d]; [discriminate|].
  assert (Hnan : s_isnan v = false)
    by (apply (minimum_not_nan (k := 0) Hmin); simpl; lia).
  simpl in Hl. rewrite Hnan in Hl.
  inversion Hl as [Hr]; clear Hl.
  assert (H : argmin_scan v 0 1 d <= j /\
              s_leb (nth (argmin_scan v 0 1 d) (v :: d) s_zero)
                    (nth j (v :: d) s_zero) = true).
  { destruct j as [|j].
    - rewrite argmin_scan_settled.
      + split; [lia|]. apply (Hle 0). simpl; lia.
      + intros w Hw. destruct (In_nth _ _ s_zero Hw) as (q & Hq & <-).
        apply (Hle (S q)). simpl; lia.
    - apply (argmin_scan_reaches Hmin d [v] (min_ind := 0));
        [reflexivity | simpl; lia | reflexivity | simpl; lia]. }
  destruct H as [H1 H2]. split; [assumption|].
  split; [lia|]. intros k Hk.
  apply s_leb_trans with (b := nth j (v :: d) s_zero); [assumption | now apply Hle].
Qed.

(** A column without a NaN has a minimum. *)
Lemma column_without_nan_has_minimum (d : list T) :
  d <> [] -> (forall v, In v d -> s_isnan v = false) ->
  exists j, is_minimum d j.
Proof.
  induction d as [|v d IH]; [congruence|]. intros _ Hnan.
  assert (Hv : s_isnan v = false) by (apply Hnan; now left).
  assert (Hvv : s_leb v v = true) by (destruct (s_leb_total v v Hv Hv); assumption).
  destruct d as [|w d].
  - exists 0. split; [simpl; lia|].
    intros k Hk. destruct k; [assumption | simpl in Hk; lia].
  - destruct IH as (j & Hj & Hle);
      [discriminate | intros u Hu; apply Hnan; now right|].
    set (m := nth j (w :: d) s_zero) in *.
    assert (Hm : s_isnan m = false)
      by (apply Hnan; right; apply nth_In; assumption).
    destruct (s_leb v m) eqn:E.
    + exists 0. split; [simpl; lia|].
      intros k Hk. destruct k as [|k]; [assumption|].
      cbn [nth]. apply s_leb_trans with (b := m); [assumption|].
      apply (Hle k). simpl in *. lia.
    + exists (S j). split; [simpl in *; lia|].
      intros k Hk. destruct k as [|k].
      * cbn [nth]. fold m.
        destruct (s_leb_total v m Hv Hm) as [H|H]; [congruence | assumption].
      * apply (Hle k). simpl in *. lia.
Qed.

End Argmin.

Section Assignment.

Context {T : Type} {SC : Scalar T}.
Variable metric : point T -> point T -> T.

(** The label [argmin(axis=0)] gives a point is the [argmin] of the point's
    column in the matrix of [cdist]. *)
Lemma assignment_is_column_argmin (cs : list (row T)) (pts : list (point T))
    (D : list (list T)) (labels : list nat) (i : nat) :
  cdist metric cs pts = Ok D ->
  argmin_axis0 D = Ok labels ->
  i < length pts ->
  exists l, nth_error labels i = Some l /\ argmin (column i D) = Ok l.
Proof.
  intros HD HL Hi.
  apply cdist_ok in HD. destruct HD as (ps & _ & Hps & _ & ->).
  rewrite (argmin_axis0_cdist metric pts Hps) in HL. inversion HL; subst labels.
  set (p := nth i pts (s_zero, s_zero)).
  exists (nearest metric ps p). split.
  - rewrite nth_error_map, (nth_error_nth' pts (s_zero, s_zero) Hi). reflexivity.
  - rewrite (column_cdist metric ps pts (s_zero, s_zero) Hi).
    now apply argmin_column.
Qed.

End Assignment.

Section Update.

Context {T : Type} {SC : Scalar T}.

(** A label that no point carries selects nothing. *)
Lemma boolean_index_no_member (a : list T) (labels : list nat) (j : nat) :
  ~ In j labels -> boolean_index a (labels_eq labels j) = [].
Proof.
  revert a. induction labels as [|l labels IH]; intros a Hj.
  - now destruct a.
  - destruct a as [|v a]; [reflexivity|]. simpl.
    destruct (Nat.eqb_spec l j) as [->|_].
    + elim Hj. now left.
    + apply IH. intros H. apply Hj. now right.
Qed.

Lemma new_centroids_nth (pts : list (point T)) (labels : list nat)
    (cs : list (row T)) (j : nat) :
  j < length cs ->
  nth_error (new_centroids pts labels cs) j
  = Some [mean (boolean_index (xs pts) (labels_eq labels j));
          mean (boolean_index (ys pts) (labels_eq labels j))].
Proof.
  intros Hj. unfold new_centroids.
  rewrite nth_error_map, (nth_error_nth' (seq 0 (length cs)) 0)
    by now rewrite length_seq.
  now rewrite seq_nth.
Qed.

(** The centroid the update leaves at an index. *)
Lemma centroid_at_new_centroids (pts : list (point T)) (labels : list nat)
    (cs : list (row T)) (j : nat) :
  j < length cs ->
  centroid_at (new_centroids pts labels cs) j
  = (mean (boolean_index (xs pts) (labels_eq labels j)),
     mean (boolean_index (ys pts) (labels_eq labels j))).
Proof.
  intros Hj. unfold centroid_at, row in *.
  now rewrite (nth_error_nth _ _ [] (new_centroids_nth pts labels cs Hj)).
Qed.

(** A label that some point carries selects something. *)
Lemma boolean_index_member (a : list T) (labels : list nat) (j : nat) :
  length a = length labels -> In j labels ->
  boolean_index a (labels_eq labels j) <> [].
Proof.
  revert a. induction labels as [|l labels IH]; intros a Hlen Hj; [contradiction|].
  destruct a as [|v a]; [discriminate|]. simpl.
  destruct (Nat.eqb_spec l j) as [->|Hne]; [discriminate|].
  apply IH; [now inversion Hlen|]. destruct Hj; [contradiction | assumption].
Qed.

End Update.

(** * The notebook's run in binary64 *)

Module F64Facts.

Import F64.

Ltac split_compares :=
  repeat match goal with
  | H : context [Z.compare ?a ?b] |- _ => destruct (Z.compare_spec a b)
  | |- context [Z.compare ?a ?b] => destruct (Z.compare_spec a b)
  | H : context [Pos.compare ?a ?b] |- _ => destruct (Pos.compare_spec a b)
  | |- context [Pos.compare ?a ?b] => destruct (Pos.compare_spec a b)
  end.

(** The order of IEEE-754 values, on their specification. *)
Lemma SFleb_trans (f1 f2 f3 : spec_float) :
  SFleb f1 f2 = true -> SFleb f2 f3 = true -> SFleb f1 f3 = true.
Proof.
  unfold SFleb, SFcompare.
  change (Pos.compare_cont Eq) with Pos.compare.
  destruct f1 as [s1|s1| |s1 m1 e1], f2 as [s2|s2| |s2 m2 e2],
           f3 as [s3|s3| |s3 m3 e3];
    try destruct s1; try destruct s2; try destruct s3;
    try reflexivity; try discriminate;
    intros H12 H23; split_compares; simpl in *;
    try reflexivity; try discriminate; try lia.
Qed.

Lemma SFleb_unordered (f g : spec_float) :
  SFeqb g g = false -> SFleb f g = false.
Proof.
  unfold SFleb, SFeqb, SFcompare.
  change (Pos.compare_cont Eq) with Pos.compare.
  destruct g as [s|s| |s m e]; try destruct s; try discriminate;
    try (rewrite Z.compare_refl, Pos.compare_refl; discriminate).
  intros _. now destruct f.
Qed.

Lemma SFleb_total (f g : spec_float) :
  SFeqb f f = true -> SFeqb g g = true ->
  SFleb f g = true \/ SFleb g f = true.
Proof.
  unfold SFleb, SFeqb, SFcompare.
  change (Pos.compare_cont Eq) with Pos.compare.
  destruct f as [s1|s1| |s1 m1 e1], g as [s2|s2| |s2 m2 e2];
    try destruct s1; try destruct s2;
    try discriminate; intros _ _; try (now left); try (now right);
    split_compares; simpl; try (now left); try (now right); lia.
Qed.

#[export] Instance float64_order : ScalarOrder float.
Proof.
  split.
  - intros a b c. cbn. rewrite !leb_spec. apply SFleb_trans.
  - intros a v. cbn. unfold PrimFloat.is_nan.
    rewrite negb_true_iff, eqb_spec, leb_spec. apply SFleb_unordered.
  - intros a b. cbn. unfold PrimFloat.is_nan.
    rewrite !negb_false_iff, !eqb_spec, !leb_spec. apply SFleb_total.
Qed.

(** The mean of an empty selection is [0.0 / 0], a NaN. *)
Lemma mean_empty : mean (T := float) [] = nan.
Proof. reflexivity. Qed.

(** C2 (as the loop behaves): a centroid to which the pass assigns no point
    leaves the update with both coordinates NaN, whatever they were; the
    division of the empty mean raises nothing. *)
Theorem empty_cluster_centroid_becomes_nan
    (pts : list (point float)) (cs : list (row float))
    (labels : list nat) (cs' : list (row float)) (j : nat) :
  loop_body euclidean pts cs = Ok (labels, cs') ->
  j < length cs -> ~ In j labels ->
  nth_error cs' j = Some [nan; nan].
Proof.
  intros H Hj Hno.
  destruct (loop_body_post _ _ _ H) as (_ & _ & _ & _ & ->).
  rewrite (new_centroids_nth _ _ _ Hj), !boolean_index_no_member by assumption.
  reflexivity.
Qed.

Lemma empty_cluster_centroid_becomes_nan_witness :
  nth_error [[0; 0.5]; [10; 0.5]; [nan; nan]]%float 2 = Some [nan; nan].
Proof.
  apply (@empty_cluster_centroid_becomes_nan
           square_points three_centroids [0; 0; 1; 1]).
  - vm_compute. reflexivity.
  - simpl. lia.
  - simpl. lia.
Defined.

(** On the scenario's points with a third, far centroid, the third centroid
    has no member and does not keep its coordinates. *)
Lemma empty_cluster_is_not_frozen :
  ~ frozen_when_empty euclidean square_points three_centroids.
Proof.
  intros H.
  specialize (H [0; 0; 1; 1] [[0; 0.5]; [10; 0.5]; [nan; nan]]%float 2).
  assert (E : Some [nan; nan] = Some [100%float; 100%float]).
  { apply H; [vm_compute; reflexivity | simpl; lia | simpl; lia]. }
  apply (f_equal (option_map (map PrimFloat.is_nan))) in E.
  vm_compute in E. discriminate.
Qed.

(** A column that holds a NaN has no minimum, and [argmin] gives the index
    of its first NaN. *)
Lemma column_with_nan :
  argmin [2; 2; nan]%float = Ok 2 /\
  forall j, ~ is_minimum [2; 2; nan]%float j.
Proof.
  split; [reflexivity|]. intros j [Hj H].
  specialize (H 2 ltac:(simpl; lia)).
  destruct j as [|[|[|j]]];
    [vm_compute in H; discriminate.. | simpl in Hj; lia].
Qed.

(** In a column without a NaN some centroid stands at minimum distance, so
    the label is the lowest index at minimum distance. *)
Lemma label_is_lowest_minimum_without_nan
    (centroids : list (row float)) (points : list (point float))
    (distances : list (list float)) (labels : list nat) (i : nat) :
  cell13 euclidean centroids points = Ok distances ->
  cell15 distances = Ok labels ->
  i < length points ->
  (forall v, In v (column i distances) -> PrimFloat.is_nan v = false) ->
  exists l, nth_error labels i = Some l /\
            is_minimum (column i distances) l /\
            forall j, is_minimum (column i distances) j -> l <= j.
Proof.
  intros H13 H15 Hi Hnan.
  destruct (assignment_is_column_argmin _ _ _ H13 H15 Hi) as (l & Hl & Ha).
  assert (Hne : column i distances <> [])
    by (intros E; rewrite E in Ha; discriminate).
  destruct (@column_without_nan_has_minimum float float64 float64_order
              _ Hne Hnan) as [j0 Hj0].
  exists l. split; [assumption|]. split.
  - now destruct (argmin_lowest_minimum Hj0 Ha).
  - intros j Hj. now destruct (argmin_lowest_minimum Hj Ha).
Qed.

(** The scenario of the specification, ten passes asked for: the second
    pass repeats the assignment of the first, and the loop goes on. *)
Lemma loop_does_not_stop_when_stable :
  ~ stops_when_stable (fst (for_loop euclidean 10 square_points two_centroids)).
Proof.
  intros H.
  specialize (H 0 [0; 0; 1; 1] [[0; 0.5]; [10; 0.5]]%float
                [[0; 0.5]; [10; 0.5]]%float).
  assert (E : length (fst (for_loop euclidean 10 square_points two_centroids)) = 2)
    by (apply H; vm_compute; reflexivity).
  vm_compute in E. discriminate.
Qed.

Lemma loop_runs_all_passes_and_repeats_stable_state_witness :
  iterations_performed euclidean 10 square_points two_centroids = 10 /\
  forall t l c1 c2,
    nth_error (fst (for_loop euclidean 10 square_points two_centroids)) t
      = Some (l, c1) ->
    nth_error (fst (for_loop euclidean 10 square_points two_centroids)) (S t)
      = Some (l, c2) ->
    forall u, t <= u -> u < 10 ->
      nth_error (fst (for_loop euclidean 10 square_points two_centroids)) u
        = Some (l, c1).
Proof.
  apply (@loop_runs_all_passes_and_repeats_stable_state float float64 euclidean
           10 square_points two_centroids).
  reflexivity.
Defined.

(** A valid construction whose first pass already leaves a NaN centroid. *)
Lemma valid_run_produces_nan :
  valid_construction 1 square_points three_centroids /\
  ~ run_is_fault_free euclidean 1 square_points three_centroids.
Proof.
  split.
  - unfold valid_construction. simpl length. repeat split; try lia.
    intros c [<-|[<-|[<-|[]]]]; reflexivity.
  - intros [_ H]. vm_compute in H. discriminate.
Qed.

Lemma valid_run_raises_nothing_witness :
  snd (for_loop euclidean 3 square_points three_centroids) = None /\
  forall c,
    In c (three_centroids
          :: map snd (fst (for_loop euclidean 3 square_points three_centroids))) ->
    exists r, loop_body euclidean square_points c = Ok r.
Proof.
  apply (@valid_run_raises_nothing float float64 euclidean
           3 square_points three_centroids).
  reflexivity.
Defined.

(** Two centroids for one point is an invalid configuration for the
    specification; the loop runs its three passes and raises nothing. *)
Lemma more_centroids_than_points_is_accepted :
  ~ fails_iff_invalid euclidean 3 one_point two_for_one.
Proof.
  intros [_ H]. apply H.
  - left. simpl. lia.
  - vm_compute. reflexivity.
Qed.


Lemma distortion_values :
  map (fun e => distortion square_points (fst e) (snd e))
      (fst (for_loop euclidean 2 square_points three_centroids))
  = [1; 101]%float.
Proof. vm_compute. reflexivity. Qed.

(** Rounding alone raises the distortion in binary64: near 1e16 the means
    are rounded to even, no cluster is ever empty, the assignment alternates
    between two states and the distortion between 20 and 28. *)
Lemma rounding_raises_distortion :
  let tr := fst (for_loop euclidean 4 far_points far_centroids) in
  finite_inputs far_points far_centroids = true /\
  map fst tr = [[0; 1; 0; 1]; [0; 0; 0; 1]; [0; 1; 0; 1]; [0; 0; 0; 1]] /\
  map (fun e => distortion far_points (fst e) (snd e)) tr
  = [20; 28; 20; 28]%float.
Proof. vm_compute. repeat split. Qed.

Lemma assignment_total_and_in_range_witness :
  length [2; 2; 2; 2] = length square_points /\
  (forall i, i < length square_points ->
     exists j, nth_error [2; 2; 2; 2] i = Some j /\ j < length three_centroids) /\
  length [[nan; nan]; [nan; nan]; [5; 0.5]]%float = length three_centroids.
Proof.
  apply (@assignment_total_and_in_range float float64 euclidean
           2 square_points three_centroids).
  right. left. vm_compute. reflexivity.
Defined.

(** The scenario of the specification: the centroids the loop ends on. *)
Lemma scenario_final_centroids :
  final_centroids euclidean 10 square_points two_centroids
  = [[0; 0.5]; [10; 0.5]]%float.
Proof. vm_compute. reflexivity. Qed.

End F64Facts.

(** * The distortion over the rationals *)

Module RationalFacts.
Import Rational.
Local Open Scope Q_scope.

#[export] Instance rational_order : ScalarOrder Q.
Proof.
  split.
  - intros a b c. cbn. rewrite !Qle_bool_iff. apply Qle_trans.
  - intros a v. cbn. discriminate.
  - intros a b _ _. cbn. rewrite !Qle_bool_iff.
    destruct (Qlt_le_dec a b) as [H|H]; [left; now apply Qlt_le_weak | now right].
Qed.

Lemma qsum_cons (x : Q) (l : list Q) : qsum (x :: l) = x + qsum l.
Proof. reflexivity. Qed.

Lemma fold_left_qsum (l : list Q) (a : Q) : fold_left Qplus l a == a + qsum l.
Proof.
  revert a. induction l as [|v l IH]; intros a.
  - cbn. ring.
  - cbn [fold_left]. rewrite IH, qsum_cons. ring.
Qed.

Lemma sum_qsum (l : list Q) : sum l == qsum l.
Proof. unfold sum. cbn [s_add s_zero rational]. rewrite fold_left_qsum. ring. Qed.

Lemma qsum_le {A : Type} (f g : A -> Q) (l : list A) :
  (forall x, In x l -> f x <= g x) -> qsum (map f l) <= qsum (map g l).
Proof.
  induction l as [|x l IH]; intros H; cbn [map].
  - apply Qle_refl.
  - rewrite !qsum_cons.
    apply Qplus_le_compat; [apply H; now left|].
    apply IH. intros y Hy. apply H. now right.
Qed.

Lemma qsum_eq {A : Type} (f g : A -> Q) (l : list A) :
  (forall x, In x l -> f x == g x) -> qsum (map f l) == qsum (map g l).
Proof.
  intros H. apply Qle_antisym; apply qsum_le; intros x Hx;
    rewrite (H x Hx); apply Qle_refl.
Qed.

Lemma qsum_map_plus {A : Type} (f g : A -> Q) (l : list A) :
  qsum (map (fun x => f x + g x) l) == qsum (map f l) + qsum (map g l).
Proof.
  induction l as [|x l IH]; cbn [map].
  - cbn. ring.
  - rewrite !qsum_cons, IH. ring.
Qed.

Lemma qsum_zero {A : Type} (l : list A) : qsum (map (fun _ => 0) l) == 0.
Proof.
  induction l as [|x l IH]; cbn [map]; [reflexivity|].
  rewrite qsum_cons, IH. ring.
Qed.

(** Summing, over a range of indices, a term that is present at one index
    only. *)
Lemma qsum_indicator (G : nat -> Q) (l a K : nat) :
  (a <= l < a + K)%nat ->
  qsum (map (fun j => if Nat.eqb l j then G j else 0) (seq a K)) == G l.
Proof.
  revert a. induction K as [|K IH]; intros a H; [lia|].
  cbn [seq map]. rewrite qsum_cons.
  destruct (Nat.eqb_spec l a) as [->|Hne].
  - rewrite (qsum_eq (fun j => if Nat.eqb a j then G j else 0) (fun _ => 0)).
    + rewrite qsum_zero. ring.
    + intros j Hj. apply in_seq in Hj.
      destruct (Nat.eqb_spec a j); [lia | reflexivity].
  - rewrite IH by lia. ring.
Qed.

(** A sum over the points, regrouped cluster by cluster. *)
Lemma qsum_by_cluster (F : nat -> point Q -> Q) (K : nat)
    (pts : list (point Q)) (labels : list nat) :
  Forall (fun l => (l < K)%nat) labels ->
  qsum (map (fun pl => F (snd pl) (fst pl)) (combine pts labels))
  == qsum (map (fun j => qsum (map (F j) (members pts labels j))) (seq 0 K)).
Proof.
  revert labels. induction pts as [|p pts IH]; intros labels HK.
  - cbn [combine map members]. symmetry. apply (qsum_zero (seq 0 K)).
  - destruct labels as [|l labels].
    + cbn [combine map members]. symmetry. apply (qsum_zero (seq 0 K)).
    + inversion HK as [|? ? Hl HK']; subst.
      cbn [combine map fst snd]. rewrite qsum_cons, (IH labels HK').
      rewrite <- (@qsum_indicator (fun j => F j p) l 0%nat K) by lia.
      rewrite <- qsum_map_plus. apply qsum_eq. intros j _.
      cbn [members]. destruct (Nat.eqb l j); [rewrite (map_cons (F j)), qsum_cons|]; ring.
Qed.

Lemma boolean_index_members (pts : list (point Q)) (labels : list nat) (j : nat) :
  boolean_index (xs pts) (labels_eq labels j) = map fst (members pts labels j) /\
  boolean_index (ys pts) (labels_eq labels j) = map snd (members pts labels j).
Proof.
  revert labels. induction pts as [|p pts IH]; intros labels; [cbn; now split|].
  destruct labels as [|l labels]; [cbn; now split|].
  destruct (IH labels) as [I1 I2]. unfold xs, ys in *.
  cbn [map labels_eq boolean_index members].
  destruct (Nat.eqb l j); cbn [map]; fold (labels_eq labels j);
    rewrite I1, I2; now split.
Qed.

Lemma square_nonneg (x : Q) : 0 <= x * x.
Proof. nra. Qed.

Lemma count_nonneg (n : nat) : 0 <= inject_Z (Z.of_nat n).
Proof. change 0 with (inject_Z 0). rewrite <- Zle_Qle. lia. Qed.

(** The sum of squared deviations from [a], split at any [m]. *)
Lemma sse_shift (zs : list Q) (a m : Q) :
  qsum (map (fun z => (a - z) * (a - z)) zs)
  == qsum (map (fun z => (m - z) * (m - z)) zs)
     + 2 * (a - m) * (inject_Z (Z.of_nat (length zs)) * m - qsum zs)
     + inject_Z (Z.of_nat (length zs)) * ((a - m) * (a - m)).
Proof.
  induction zs as [|z zs IH].
  - cbn. ring.
  - cbn [map length]. rewrite !qsum_cons, IH.
    rewrite Nat2Z.inj_succ, <- Z.add_1_r, inject_Z_plus.
    change (inject_Z 1) with 1. ring.
Qed.

Lemma mean_cancels (zs : list Q) :
  zs <> [] ->
  inject_Z (Z.of_nat (length zs)) * mean zs - qsum zs == 0.
Proof.
  intros H. unfold mean. cbn [s_div s_of_nat rational]. rewrite sum_qsum.
  assert (Hn : ~ inject_Z (Z.of_nat (length zs)) == 0).
  { destruct zs as [|z zs]; [congruence|]. cbn [length].
    intros E. rewrite Nat2Z.inj_succ in E.
    assert (0 < inject_Z (Z.succ (Z.of_nat (length zs)))).
    { change 0 with (inject_Z 0). rewrite <- Zlt_Qlt. lia. }
    lra. }
  field. exact Hn.
Qed.

(** The mean of a list is where the sum of squared deviations is least. *)
Lemma mean_minimises (zs : list Q) (a : Q) :
  qsum (map (fun z => (mean zs - z) * (mean zs - z)) zs)
  <= qsum (map (fun z => (a - z) * (a - z)) zs).
Proof.
  destruct zs as [|z0 zs0] eqn:E; [apply Qle_refl|]. rewrite <- E.
  rewrite (sse_shift zs a (mean zs)), mean_cancels by (rewrite E; discriminate).
  pose proof (Qmult_le_0_compat _ _ (count_nonneg (length zs))
                (square_nonneg (a - mean zs))).
  lra.
Qed.

(** A non-empty column of rationals has a minimum. *)
Lemma rational_has_minimum (d : list Q) :
  d <> [] -> exists j, is_minimum d j.
Proof. intros H. now apply column_without_nan_has_minimum. Qed.

(** In exact arithmetic the label of a point is a nearest centroid. *)
Lemma nearest_optimal (ps : list (point Q)) (p : point Q) (k : nat) :
  (k < length ps)%nat ->
  sqeuclidean (nth (nearest sqeuclidean ps p) ps (0, 0)) p
  <= sqeuclidean (nth k ps (0, 0)) p.
Proof.
  intros Hk.
  assert (Hps : ps <> []) by (destruct ps; [simpl in Hk; lia | discriminate]).
  set (col := map (fun c => sqeuclidean c p) ps).
  assert (Hcol : col <> []) by (subst col; destruct ps; [congruence | discriminate]).
  destruct (@rational_has_minimum col Hcol) as [j Hj].
  destruct (@argmin_lowest_minimum Q _ _ col j _ Hj
              (@argmin_column Q _ sqeuclidean ps p Hps)) as (_ & Hl & Hle).
  specialize (Hle k). subst col. rewrite length_map in Hl, Hle.
  specialize (Hle Hk). apply Qle_bool_iff in Hle.
  rewrite !(nth_indep (map _ ps) s_zero (sqeuclidean (0, 0) p)) in Hle
    by now rewrite length_map.
  now rewrite !(map_nth (fun c => sqeuclidean c p)) in Hle.
Qed.

Lemma centroid_at_as_points (cs : list (row Q)) (ps : list (point Q)) (l : nat) :
  as_points cs = Some ps -> (l < length cs)%nat ->
  centroid_at cs l = nth l ps (0, 0).
Proof.
  revert ps l. induction cs as [|c cs IH]; intros ps l H Hl; [simpl in Hl; lia|].
  simpl in H. destruct (as_point c) as [q|] eqn:Ec; [|discriminate].
  destruct (as_points cs) as [qs|] eqn:Ecs; [|discriminate].
  inversion H; subst. destruct l as [|l].
  - unfold centroid_at. cbn [nth]. now rewrite Ec.
  - cbn [nth length] in *. rewrite <- (IH qs l eq_refl) by lia. reflexivity.
Qed.

(** Relabelling every point with its nearest centroid does not raise the
    distortion. *)
Lemma reassignment_does_not_increase (pts : list (point Q))
    (cs : list (row Q)) (ps : list (point Q)) (l1 : list nat) :
  as_points cs = Some ps ->
  length l1 = length pts ->
  Forall (fun l => (l < length cs)%nat) l1 ->
  distortion pts (map (nearest sqeuclidean ps) pts) cs
  <= distortion pts l1 cs.
Proof.
  intros Hps Hl1len Hl1. unfold distortion. rewrite !sum_qsum.
  assert (Hlen : length ps = length cs) by now apply as_points_length.
  revert l1 Hl1len Hl1. induction pts as [|p pts IH]; intros l1 Hl1len Hl1.
  - cbn. apply Qle_refl.
  - destruct l1 as [|l l1]; [discriminate|].
    inversion Hl1 as [|? ? Hl Hl1']; subst.
    cbn [combine map fst snd]. rewrite !qsum_cons.
    apply Qplus_le_compat; [|apply IH; [now inversion Hl1len | assumption]].
    assert (Hne : ps <> []) by (destruct ps; [simpl in Hlen; lia | discriminate]).
    rewrite !(centroid_at_as_points _ Hps) by
      (try assumption; rewrite <- Hlen; now apply nearest_bound).
    apply nearest_optimal. lia.
Qed.

Lemma sqeuclidean_split (c : point Q) (ms : list (point Q)) :
  qsum (map (fun p => sqeuclidean c p) ms)
  == qsum (map (fun z => (fst c - z) * (fst c - z)) (map fst ms))
     + qsum (map (fun z => (snd c - z) * (snd c - z)) (map snd ms)).
Proof.
  rewrite !map_map, <- qsum_map_plus. apply qsum_eq. intros p _.
  unfold sqeuclidean. cbn [s_add s_sub s_mul s_zero rational]. ring.
Qed.

(** Moving every centroid to the mean of its members does not raise the
    distortion. *)
Lemma update_does_not_increase (pts : list (point Q)) (labels : list nat)
    (cs : list (row Q)) :
  Forall (fun l => (l < length cs)%nat) labels ->
  distortion pts labels (new_centroids pts labels cs)
  <= distortion pts labels cs.
Proof.
  intros Hl. unfold distortion. rewrite !sum_qsum.
  rewrite (qsum_by_cluster
             (fun j p =>
                sqeuclidean (centroid_at (new_centroids pts labels cs) j) p)
             pts Hl).
  rewrite (qsum_by_cluster (fun j p => sqeuclidean (centroid_at cs j) p) pts Hl).
  apply qsum_le. intros j Hj. apply in_seq in Hj.
  rewrite centroid_at_new_centroids by lia.
  destruct (boolean_index_members pts labels j) as [-> ->].
  rewrite !sqeuclidean_split. cbn [fst snd].
  apply Qplus_le_compat; apply mean_minimises.
Qed.

End RationalFacts.

(** * The loop in exact arithmetic *)

Module ExactFacts.
Import Rational Exact RationalFacts.

Lemma sqeuclidean_exactly (c p : point Q) :
  sqeuclidean (exactly c) (exactly p) = Some (sqeuclidean c p).
Proof. reflexivity. Qed.

Lemma argmin_scan_exactly (l : list Q) (mp : Q) (min_ind i : nat) :
  argmin_scan (Some mp) min_ind i (map Some l) = argmin_scan mp min_ind i l.
Proof.
  revert mp min_ind i. induction l as [|v l IH]; intros mp min_ind i; [reflexivity|].
  cbn [map argmin_scan s_leb s_isnan exact rational].
  destruct (Qle_bool mp v); cbn [negb]; apply IH.
Qed.

(** On rational points and centroids the label is the one the rationals
    give. *)
Lemma nearest_exactly (ps : list (point Q)) (p : point Q) :
  nearest sqeuclidean (map exactly ps) (exactly p) = nearest sqeuclidean ps p.
Proof.
  destruct ps as [|c ps]; [reflexivity|].
  cbn [map nearest]. rewrite sqeuclidean_exactly.
  cbn [s_isnan exact rational]. rewrite map_map.
  rewrite (map_ext _ (fun c' => Some (sqeuclidean c' p)))
    by (intros c'; apply sqeuclidean_exactly).
  rewrite <- (map_map (fun c' => sqeuclidean c' p) Some).
  apply argmin_scan_exactly.
Qed.

Lemma sum_exactly (l : list Q) : sum (map Some l) = Some (sum l).
Proof.
  unfold sum. cbn [s_zero s_add exact rational].
  generalize 0%Q. induction l as [|v l IH]; intros a; [reflexivity|].
  cbn [map fold_left lift2]. apply IH.
Qed.

Lemma count_not_zero {A : Type} (l : list A) :
  l <> [] -> Qeq_bool (inject_Z (Z.of_nat (length l))) 0 = false.
Proof.
  intros H. destruct l as [|x l]; [congruence|].
  destruct (Qeq_bool _ 0) eqn:E; [|reflexivity].
  apply Qeq_bool_eq in E. cbn [length] in E. rewrite Nat2Z.inj_succ in E.
  assert (0 < inject_Z (Z.succ (Z.of_nat (length l))))%Q.
  { change 0%Q with (inject_Z 0). rewrite <- Zlt_Qlt. lia. }
  lra.
Qed.

(** The mean of a non-empty selection of rationals is their rational
    mean. *)
Lemma mean_exactly (l : list Q) :
  l <> [] -> mean (map Some l) = Some (mean l).
Proof.
  intros H. unfold mean. rewrite sum_exactly, length_map.
  cbn [s_div s_of_nat exact rational]. now rewrite (count_not_zero H).
Qed.

Lemma boolean_index_exactly (pts : list (point Q)) (mask : list bool) :
  boolean_index (xs (map exactly pts)) mask = map Some (boolean_index (xs pts) mask) /\
  boolean_index (ys (map exactly pts)) mask = map Some (boolean_index (ys pts) mask).
Proof.
  unfold xs, ys. revert mask. induction pts as [|p pts IH]; intros mask; [now split|].
  destruct mask as [|b mask]; [now split|].
  destruct (IH mask) as [I1 I2].
  cbn [map boolean_index exactly fst snd]. rewrite I1, I2.
  now destruct b.
Qed.

(** The centroid of a cluster with a member is the rational mean of its
    members. *)
Lemma centroid_exactly (pts : list (point Q)) (labels : list nat)
    (cs : list (row (option Q))) (qcs : list (row Q)) (j : nat) :
  j < length cs -> j < length qcs ->
  length labels = length pts -> In j labels ->
  centroid_at (new_centroids (map exactly pts) labels cs) j
  = exactly (centroid_at (new_centroids pts labels qcs) j).
Proof.
  intros Hj Hq Hlen Hin.
  rewrite !centroid_at_new_centroids by assumption.
  destruct (boolean_index_exactly pts (labels_eq labels j)) as [-> ->].
  rewrite !mean_exactly; [reflexivity | |];
    apply boolean_index_member; try assumption;
    unfold xs, ys; now rewrite length_map.
Qed.

Lemma combine_exactly (pts : list (point Q)) (labels : list nat) :
  combine (map exactly pts) labels
  = map (fun pl => (exactly (fst pl), snd pl)) (combine pts labels).
Proof.
  revert labels. induction pts as [|p pts IH]; intros labels; [reflexivity|].
  destruct labels as [|l labels]; [reflexivity|].
  cbn [map combine fst snd]. now rewrite IH.
Qed.

(** The distortion reads the centroids of the labels in use only; where
    those are rational it is the rational distortion. *)
Lemma distortion_exactly (pts : list (point Q)) (labels : list nat)
    (cs : list (row (option Q))) (qcs : list (row Q)) :
  (forall l, In l labels -> centroid_at cs l = exactly (centroid_at qcs l)) ->
  distortion (map exactly pts) labels cs = Some (distortion pts labels qcs).
Proof.
  intros H. unfold distortion. rewrite combine_exactly, map_map.
  rewrite <- sum_exactly, map_map. f_equal.
  apply map_ext_in. intros [p l] Hin. cbn [fst snd].
  rewrite (H l) by (eapply in_combine_r; eauto).
  apply sqeuclidean_exactly.
Qed.

Lemma as_points_exactly (qcs : list (row Q)) :
  as_points (map exactly_row qcs) = option_map (map exactly) (as_points qcs).
Proof.
  induction qcs as [|c qcs IH]; [reflexivity|].
  cbn [map as_points]. rewrite IH.
  destruct c as [|a [|b [|? ?]]]; try reflexivity.
  cbn. now destruct (as_points qcs).
Qed.

(** When every cluster has a member, the updated centroids are rational. *)
Lemma full_clusters_are_rational (pts : list (point Q)) (labels : list nat)
    (cs : list (row (option Q))) (qcs : list (row Q)) :
  length qcs = length cs ->
  length labels = length pts ->
  (forall j, j < length cs -> In j labels) ->
  new_centroids (map exactly pts) labels cs
  = map exactly_row (new_centroids pts labels qcs).
Proof.
  intros Hq Hlen Hfull. unfold new_centroids. rewrite Hq, map_map.
  apply map_ext_in. intros j Hj. apply in_seq in Hj.
  destruct (boolean_index_exactly pts (labels_eq labels j)) as [-> ->].
  rewrite !mean_exactly; [reflexivity | |];
    apply boolean_index_member;
    try (apply Hfull; lia); unfold xs, ys; now rewrite length_map.
Qed.

(** Two passes in a row, the first of which left no cluster empty. *)
Lemma second_pass_does_not_increase (pts : list (point Q))
    (c0 c1 c2 : list (row (option Q))) (l1 l2 : list nat) :
  loop_body sqeuclidean (map exactly pts) c0 = Ok (l1, c1) ->
  loop_body sqeuclidean (map exactly pts) c1 = Ok (l2, c2) ->
  no_empty_cluster l1 c1 ->
  s_leb (distortion (map exactly pts) l2 c2)
        (distortion (map exactly pts) l1 c1) = true.
Proof.
  intros H0 H1 Hfull.
  destruct (loop_body_post _ _ _ H0) as (N1 & F1 & L1 & _ & E1).
  destruct (loop_body_post _ _ _ H1) as (N2 & F2 & _ & _ & E2).
  destruct (loop_body_ok _ _ _ H1) as (ps & Hps & _ & _ & El2 & _).
  rewrite length_map in N1, N2.
  set (q0 := repeat (@nil Q) (length c0)).
  set (qc1 := new_centroids pts l1 q0).
  set (qc2 := new_centroids pts l2 qc1).
  assert (Lq0 : length q0 = length c0) by apply repeat_length.
  assert (Lq1 : length qc1 = length c0)
    by (unfold qc1; now rewrite new_centroids_length).
  assert (Ec1 : c1 = map exactly_row qc1).
  { rewrite E1. apply full_clusters_are_rational; try assumption.
    intros j Hj. apply Hfull. now rewrite L1. }
  destruct (proj2 (as_points_some qc1) (new_centroids_rows pts l1 q0))
    as [qps Hqps].
  assert (Eps : ps = map exactly qps).
  { rewrite Ec1, as_points_exactly, Hqps in Hps. now inversion Hps. }
  assert (El2' : l2 = map (nearest sqeuclidean qps) pts).
  { rewrite El2, Eps, map_map. apply map_ext. intros p. apply nearest_exactly. }
  assert (J2 : distortion (map exactly pts) l2 c2 = Some (distortion pts l2 qc2)).
  { apply distortion_exactly. intros l Hl. rewrite E2.
    rewrite Forall_forall in F2. specialize (F2 l Hl).
    apply centroid_exactly; try assumption; unfold row in *; lia. }
  assert (J1 : distortion (map exactly pts) l1 c1 = Some (distortion pts l1 qc1)).
  { apply distortion_exactly. intros l Hl. rewrite E1.
    rewrite Forall_forall in F1. specialize (F1 l Hl).
    apply centroid_exactly; try assumption; unfold row in *; lia. }
  rewrite J2, J1. cbn [s_leb exact]. apply Qle_bool_iff.
  apply Qle_trans with (y := distortion pts l2 qc1).
  - apply update_does_not_increase. now rewrite Lq1, <- L1.
  - rewrite El2'. apply reassignment_does_not_increase;
      [assumption | assumption | now rewrite Lq1].
Qed.



(** The proviso is needed without rounding too: with a third, far centroid
    the first pass leaves a cluster empty, its NaN centroid takes every
    point in the second pass, and the distortion rises from 146/3 to
    251/4. *)
Lemma exact_distortion_rises_after_empty_cluster :
  let centroids := line_centroids ++ [[Some 100; Some 0]]%Q in
  let tr := fst (for_loop sqeuclidean 2 (map exactly line_points) centroids) in
  map fst tr = [[0; 1; 1; 1]; [2; 2; 2; 2]] /\
  forall l1 c1 l2 c2,
    nth_error tr 0 = Some (l1, c1) -> nth_error tr 1 = Some (l2, c2) ->
    s_leb (distortion (map exactly line_points) l2 c2)
          (distortion (map exactly line_points) l1 c1) = false.
Proof.
  split; [vm_compute; reflexivity|].
  intros l1 c1 l2 c2 H1 H2. vm_compute in H1, H2.
  inversion H1; inversion H2; subst. vm_compute. reflexivity.
Qed.

End ExactFacts.

(** * The cells around the loop *)

Section CellFacts.

Context {T : Type} {SC : Scalar T}.
Variable metric : point T -> point T -> T.

(** X1: cell 7 succeeds exactly when fifty values were drawn; [x] is then
    the first twenty-five of them and [y] the last twenty-five, in order. *)
Theorem cell7_splits_the_draw (draw x y : list T) :
  cell7 draw = Ok (x, y) <->
  length draw = 50 /\ x = firstn 25 draw /\ y = skipn 25 draw.
Proof.
  unfold cell7, reshape.
  destruct (Nat.eqb_spec (length draw) (2 * 25)) as [E|E].
  - cbn [bind rows_of unpack2].
    assert (Hs : skipn 25 (skipn 25 draw) = []).
    { apply length_zero_iff_nil. rewrite !length_skipn. lia. }
    assert (Hf : firstn 25 (skipn 25 draw) = skipn 25 draw).
    { apply firstn_all2. rewrite length_skipn. lia. }
    rewrite Hf. split.
    + intros H. inversion H; subst. repeat split. lia.
    + intros (_ & -> & ->). reflexivity.
  - cbn [bind]. split; [discriminate | intros (H & _); lia].
Qed.

Lemma cell7_halves (draw : list T) :
  length draw = 50 -> cell7 draw = Ok (firstn 25 draw, skipn 25 draw).
Proof.
  intros E. unfold cell7, reshape. rewrite E. cbn [Nat.eqb Nat.mul Nat.add bind].
  cbn [rows_of unpack2 bind].
  rewrite (firstn_all2 (n := 25) (skipn 25 draw))
    by (rewrite length_skipn; lia).
  reflexivity.
Qed.

(** X2: the matrix of [cdist] has one row per centroid and one column per
    point. *)
Theorem cdist_shape (cs : list (row T)) (pts : list (point T))
    (D : list (list T)) :
  cdist metric cs pts = Ok D ->
  length D = length cs /\ forall r, In r D -> length r = length pts.
Proof.
  intros H. apply cdist_ok in H. destruct H as (ps & Hps & _ & _ & ->).
  split.
  - rewrite length_map. now apply as_points_length.
  - intros r Hr. apply in_map_iff in Hr. destruct Hr as (c & <- & _).
    apply length_map.
Qed.

(** *** Colours *)

Lemma take_in_bounds {A : Type} (a : list A) (idx : list nat) :
  Forall (fun i => i < length a) idx ->
  exists vs, take a idx = inr vs /\ length vs = length idx.
Proof.
  induction 1 as [|i idx Hi _ IH]; [now exists []|].
  destruct IH as (vs & E & Hlen).
  destruct (nth_error a i) as [v|] eqn:Ev.
  - exists (v :: vs). cbn [take]. rewrite Ev, E. simpl. now rewrite Hlen.
  - apply nth_error_None in Ev. lia.
Qed.

Lemma take_out_of_bounds {A : Type} (a : list A) (idx : list nat) :
  Exists (fun i => length a <= i) idx -> take a idx = inl IndexError.
Proof.
  induction 1 as [i idx Hi|i idx _ IH]; cbn [take].
  - apply nth_error_None in Hi. now rewrite Hi.
  - rewrite IH. now destruct (nth_error a i).
Qed.

(** X3: with at most four centroids, the colour lookup of the plotting cells
    is in bounds for the labels of every pass: it raises no [IndexError] and
    gives one colour per point. *)
Theorem point_colours_in_bounds
    (N : nat) (pts : list (point T)) (cs : list (row T))
    (labels : list nat) (centroids : list (row T)) :
  In (labels, centroids) (fst (for_loop metric N pts cs)) ->
  length cs <= 4 ->
  exists colours,
    point_colours labels = inr colours /\ length colours = length pts.
Proof.
  intros Hin HK.
  destruct (trace_invariant _ _ _ _ _ _ Hin) as (Hlen & Hlt & _ & _).
  destruct (@take_in_bounds _ rgbc labels) as (colours & E & Hc).
  - eapply Forall_impl; [|exact Hlt]. simpl. intros; lia.
  - exists colours. split; [assumption | congruence].
Qed.

(** *** [np.transpose] *)

Lemma as_points_columns (cs : list (row T)) (ps : list (point T)) :
  as_points cs = Some ps ->
  column 0 cs = map fst ps /\ column 1 cs = map snd ps /\
  forallb (fun r => Nat.eqb (length r) 2) cs = true.
Proof.
  revert ps. induction cs as [|c cs IH]; intros ps H; simpl in H.
  - inversion H. now repeat split.
  - destruct c as [|a [|b [|? ?]]]; simpl in H; try discriminate.
    destruct (as_points cs) as [qs|]; [|discriminate].
    inversion H; subst. destruct (IH qs eq_refl) as (I0 & I1 & I2).
    unfold column in *. cbn. now rewrite I0, I1, I2.
Qed.

Lemma transpose_as_points (cs : list (row T)) (ps : list (point T)) :
  as_points cs = Some ps -> cs <> [] ->
  transpose cs = Ok [map fst ps; map snd ps].
Proof.
  intros H Hne. destruct (as_points_columns _ H) as (H0 & H1 & H2).
  unfold transpose. destruct cs as [|c cs]; [congruence|].
  cbn [forallb] in H2. apply andb_true_iff in H2. destruct H2 as [Hc Hcs].
  apply Nat.eqb_eq in Hc.
  assert (Hr : rectangular (c :: cs) = true).
  { cbn [rectangular]. rewrite Hc. exact Hcs. }
  rewrite Hr, Hc. cbn [seq map]. now rewrite H0, H1.
Qed.

(** X4: the centroids of every pass transpose to exactly two rows, the
    first and the second coordinates of the centroids in order, one entry
    per centroid: the two arguments the plotting calls unpack. *)
Theorem centroids_transpose_to_coordinates
    (N : nat) (pts : list (point T)) (cs : list (row T))
    (labels : list nat) (centroids : list (row T)) :
  In (labels, centroids) (fst (for_loop metric N pts cs)) ->
  exists ps,
    as_points centroids = Some ps /\ length ps = length cs /\
    transpose centroids = Ok [map fst ps; map snd ps].
Proof.
  intros Hin.
  destruct (trace_invariant _ _ _ _ _ _ Hin) as (_ & _ & Hlen & Hs).
  unfold shapes_ok in Hs. rewrite !andb_true_iff, !negb_true_iff in Hs.
  destruct Hs as [[_ HK] Hrows]. apply Nat.eqb_neq in HK.
  destruct (proj2 (as_points_some centroids) Hrows) as [ps Hps].
  exists ps. split; [assumption|]. split.
  - rewrite (as_points_length _ Hps). exact Hlen.
  - apply transpose_as_points; [assumption|].
    intros ->. now apply HK.
Qed.

Lemma as_points_zip (x y : list T) :
  length x = length y ->
  as_points (map (fun i => [nth i x s_zero; nth i y s_zero]) (seq 0 (length x)))
  = Some (combine x y).
Proof.
  revert y. induction x as [|a x IH]; intros y Hlen; [reflexivity|].
  destruct y as [|b y]; [discriminate|].
  cbn [length seq map]. rewrite <- seq_shift, map_map.
  cbn [as_points as_point nth combine].
  now rewrite (IH y) by (now inversion Hlen).
Qed.

(** X5: for [x] and [y] of one length, the array cell 25 hands to
    [KMeans.fit] holds the points of the manual loop, [list(zip(x,y))], in
    the same order. *)
Theorem kmeans_fit_sees_the_loop_points (x y : list T) :
  length x = length y ->
  exists rows,
    cell25_input x y = Ok rows /\ as_points rows = Some (combine x y).
Proof.
  intros E. unfold cell25_input, transpose. cbn [rectangular forallb].
  rewrite <- E, Nat.eqb_refl. cbn [andb].
  eexists. split; [reflexivity|].
  unfold column. cbn [map]. now apply as_points_zip.
Qed.

(** *** The whole run *)

Lemma combine_projections (x y : list T) :
  length x = length y ->
  xs (combine x y) = x /\ ys (combine x y) = y.
Proof.
  unfold xs, ys. revert y. induction x as [|a x IH]; intros y H.
  - destruct y; [now split | discriminate].
  - destruct y as [|b y]; [discriminate|].
    destruct (IH y) as [I1 I2]; [now inversion H|].
    cbn. now rewrite I1, I2.
Qed.

(** X6: whatever fifty values are drawn, cells 7 to 21 raise nothing: the
    loop of cell 21 completes its twenty passes, and after every pass there
    are twenty-five labels, all below four, four centroids, and a colour
    for every point. *)
Theorem notebook_runs_on_every_draw (draw : list T) :
  length draw = 50 ->
  exists tr,
    notebook metric draw = Ok (tr, None) /\ length tr = 20 /\
    forall labels centroids, In (labels, centroids) tr ->
      length labels = 25 /\ Forall (fun l => l < 4) labels /\
      length centroids = 4 /\
      exists colours, point_colours labels = inr colours.
Proof.
  intros Hdraw. unfold notebook.
  assert (H7 : cell7 draw = Ok (firstn 25 draw, skipn 25 draw))
    by now apply cell7_halves.
  rewrite H7. cbn [bind fst snd].
  set (points := combine (firstn 25 draw) (skipn 25 draw) : list (point T)).
  assert (Hpts : length points = 25).
  { unfold points, point.
    rewrite length_combine, length_firstn, length_skipn. lia. }
  assert (Hs : shapes_ok points cell9 = true).
  { unfold shapes_ok. unfold point in *. rewrite Hpts. reflexivity. }
  destruct (proj2 (loop_body_shapes metric points cell9) Hs) as [[labels cs'] E].
  destruct (loop_body_post _ _ _ E) as (_ & _ & HK & Hs' & Ecs).
  unfold loop_body in E. unfold cell13, cell15, cell18.
  destruct (cdist metric cell9 points) as [D|e]; [|discriminate].
  cbn [bind] in *.
  destruct (argmin_axis0 D) as [l|e]; [|discriminate].
  cbn [bind] in *. inversion E; subst l. clear E.
  rewrite <- Ecs. unfold cell21.
  destruct (for_loop_completes metric 20 points cs' Hs') as [Hnone Hlen].
  exists (fst (for_loop metric 20 points cs')). split.
  - rewrite <- Hnone. now destruct (for_loop metric 20 points cs').
  - split; [assumption|]. intros l c Hin.
    destruct (trace_invariant _ _ _ _ _ _ Hin) as (I1 & I2 & I3 & _).
    rewrite HK in I2, I3. cbn [length cell9] in I2, I3.
    repeat split; try congruence; try assumption.
    destruct (@take_in_bounds _ rgbc l I2) as (colours & Ec & _).
    now exists colours.
Qed.

(** *** The update *)

Lemma concat_selection_skip (a : list T) (v : T) (labels : list nat) (l : nat)
    (L : list nat) :
  ~ In l L ->
  map (fun i => boolean_index (v :: a) (labels_eq (l :: labels) i)) L
  = map (fun i => boolean_index a (labels_eq labels i)) L.
Proof.
  intros H. apply map_ext_in. intros i Hi. cbn.
  destruct (Nat.eqb_spec l i) as [->|_]; [contradiction | reflexivity].
Qed.

Lemma concat_selection_step (a : list T) (v : T) (labels : list nat) (l : nat)
    (s K : nat) :
  s <= l < s + K ->
  Permutation
    (concat (map (fun i => boolean_index (v :: a) (labels_eq (l :: labels) i))
                 (seq s K)))
    (v :: concat (map (fun i => boolean_index a (labels_eq labels i))
                      (seq s K))).
Proof.
  revert s. induction K as [|K IH]; intros s H; [lia|].
  cbn [seq map concat].
  destruct (Nat.eq_dec l s) as [->|Hne].
  - rewrite concat_selection_skip by (rewrite in_seq; lia).
    cbn. rewrite Nat.eqb_refl. reflexivity.
  - cbn [labels_eq map boolean_index].
    destruct (Nat.eqb_spec l s) as [->|_]; [congruence|].
    fold (labels_eq labels s).
    rewrite (IH (S s)) by lia. symmetry. apply Permutation_middle.
Qed.

(** X7: the selections [x[labels==i]] taken for [i] in [range(K)] lose no
    element and repeat none: put end to end they are the elements of [x]
    up to order, provided every label is below [K]. *)
Theorem selections_partition (a : list T) (labels : list nat) (K : nat) :
  length labels = length a ->
  Forall (fun l => l < K) labels ->
  Permutation
    (concat (map (fun i => boolean_index a (labels_eq labels i)) (seq 0 K)))
    a.
Proof.
  revert labels. induction a as [|v a IH]; intros labels Hlen HK.
  - destruct labels; [|discriminate].
    replace (concat _) with (@nil T); [constructor|].
    symmetry. apply concat_nil_Forall, Forall_forall.
    intros l Hl. apply in_map_iff in Hl. now destruct Hl as (i & <- & _).
  - destruct labels as [|l labels]; [discriminate|].
    inversion HK as [|? ? Hl HK']; subst.
    rewrite concat_selection_step by lia.
    constructor. apply IH; [now inversion Hlen | assumption].
Qed.

(** *** One centroid *)

Lemma boolean_index_all (a : list T) (n : nat) :
  n = length a -> boolean_index a (labels_eq (repeat 0 n) 0) = a.
Proof.
  intros ->. induction a as [|v a IH]; [reflexivity|].
  unfold labels_eq in *. cbn [length repeat map Nat.eqb boolean_index].
  now rewrite IH.
Qed.

(** X8: with a single centroid every point has label 0, and the first pass
    already moves the centroid to the mean of all points, wherever it
    started; every later pass repeats that state. *)
Theorem one_centroid_is_the_mean (N : nat) (pts : list (point T)) (c : row T) :
  pts <> [] -> length c = 2 ->
  for_loop metric N pts [c]
  = (repeat (repeat 0 (length pts), [[mean (xs pts); mean (ys pts)]]) N, None).
Proof.
  intros Hpts Hc.
  assert (Hbody : forall c', length c' = 2 ->
            loop_body metric pts [c']
            = Ok (repeat 0 (length pts), [[mean (xs pts); mean (ys pts)]])).
  { intros c' Hc'.
    assert (Hs : shapes_ok pts [c'] = true).
    { unfold shapes_ok. cbn. rewrite Hc'.
      destruct pts; [congruence | reflexivity]. }
    destruct (proj2 (loop_body_shapes metric pts [c']) Hs) as [[l cs'] E].
    rewrite E. destruct (loop_body_post _ _ _ E) as (Hl & Hlt & _ & _ & ->).
    assert (El : l = repeat 0 (length pts)).
    { rewrite <- Hl. clear Hl E. induction l as [|i l IH]; [reflexivity|].
      inversion Hlt as [|? ? Hi Hlt']; subst. cbn in Hi.
      assert (i = 0) as -> by lia. cbn. now rewrite <- IH. }
    subst l. unfold new_centroids. cbn [length seq map].
    rewrite !boolean_index_all by (unfold xs, ys; now rewrite length_map).
    reflexivity. }
  destruct N as [|N]; [reflexivity|].
  etransitivity; [exact (for_loop_step metric N _ _ (Hbody c Hc))|].
  pose proof (for_loop_fixed metric N pts
                (Hbody [mean (xs pts); mean (ys pts)] eq_refl)) as E.
  unfold row in *. rewrite E. reflexivity.
Qed.

End CellFacts.

(** * NaN in the assignment step *)

Section NanScan.

Context {T : Type} {SC : Scalar T} {SO : ScalarOrder T}.

Lemma argmin_scan_first_nan (l : list T) (mp : T) (min_ind i q : nat) :
  q < length l ->
  s_isnan (nth q l s_zero) = true ->
  (forall k, k < q -> s_isnan (nth k l s_zero) = false) ->
  argmin_scan mp min_ind i l = i + q.
Proof.
  revert mp min_ind i q. induction l as [|v l IH]; intros mp min_ind i q Hq Hnan Hbefore.
  - simpl in Hq. lia.
  - destruct q as [|q].
    + cbn [nth] in Hnan. cbn [argmin_scan].
      rewrite (s_leb_nan mp v Hnan), Hnan. cbn. lia.
    + assert (Hv : s_isnan v = false) by (apply (Hbefore 0); lia).
      assert (Hrec : forall mp' mi', argmin_scan mp' mi' (S i) l = S i + q).
      { intros mp' mi'. apply IH; [simpl in Hq; lia | exact Hnan|].
        intros k Hk. apply (Hbefore (S k)). lia. }
      cbn [argmin_scan]. rewrite Hv.
      destruct (negb (s_leb mp v)); rewrite Hrec; lia.
Qed.

(** When a column holds a NaN, [argmin] returns the index of its first
    NaN, whatever the other entries are. *)
Lemma argmin_first_nan (d : list T) (j : nat) :
  j < length d ->
  s_isnan (nth j d s_zero) = true ->
  (forall k, k < j -> s_isnan (nth k d s_zero) = false) ->
  argmin d = Ok j.
Proof.
  intros Hj Hnan Hbefore. destruct d as [|v d]; [simpl in Hj; lia|].
  cbn [argmin]. destruct j as [|j].
  - cbn [nth] in Hnan. now rewrite Hnan.
  - assert (Hv : s_isnan v = false) by (apply (Hbefore 0); lia).
    rewrite Hv.
    rewrite (@argmin_scan_first_nan d v 0 1 j);
      [reflexivity | simpl in Hj; lia | exact Hnan|].
    intros k Hk. apply (Hbefore (S k)). lia.
Qed.

(** Below any NaN of a column stands the column's first NaN. *)
Lemma first_nan_exists (d : list T) (j : nat) :
  j < length d -> s_isnan (nth j d s_zero) = true ->
  exists j0, j0 <= j /\ s_isnan (nth j0 d s_zero) = true /\
             forall k, k < j0 -> s_isnan (nth k d s_zero) = false.
Proof.
  revert j. induction d as [|v d IH]; intros j Hj Hnan; [simpl in Hj; lia|].
  destruct (s_isnan v) eqn:Ev.
  - exists 0. repeat split; [lia | exact Ev | intros k Hk; lia].
  - destruct j as [|j]; [cbn in Hnan; congruence|].
    destruct (IH j) as (j0 & Hle & Hn0 & Hb); [simpl in Hj; lia | exact Hnan|].
    exists (S j0). repeat split; [lia | exact Hn0|].
    intros k Hk. destruct k as [|k]; [exact Ev | apply Hb; lia].
Qed.

(** X9: in the assignment step, a point whose column of distances holds a
    NaN is given the index of the first NaN of that column, whatever the
    other distances are. *)
Theorem label_is_the_first_nan
    (metric : point T -> point T -> T)
    (centroids : list (row T)) (points : list (point T))
    (distances : list (list T)) (labels : list nat) (i j : nat) :
  cell13 metric centroids points = Ok distances ->
  cell15 distances = Ok labels ->
  i < length points ->
  j < length centroids ->
  s_isnan (nth j (column i distances) s_zero) = true ->
  (forall k, k < j -> s_isnan (nth k (column i distances) s_zero) = false) ->
  nth_error labels i = Some j.
Proof.
  intros H13 H15 Hi Hj Hnan Hbefore.
  destruct (assignment_is_column_argmin _ _ _ H13 H15 Hi) as (l & Hl & Ha).
  assert (Hlen : length (column i distances) = length centroids).
  { unfold column. rewrite length_map.
    apply cdist_ok in H13. destruct H13 as (ps & Hps & _ & _ & ->).
    rewrite length_map. now apply as_points_length. }
  rewrite (@argmin_first_nan (column i distances) j) in Ha;
    [congruence | lia | assumption | assumption].
Qed.

End NanScan.

Module F64Cells.

Import F64 F64Facts.

Lemma is_nan_spec (x : float) :
  PrimFloat.is_nan x = true <-> Prim2SF x = S754_nan.
Proof.
  unfold PrimFloat.is_nan. rewrite negb_true_iff, eqb_spec.
  unfold SFeqb, SFcompare. change (Pos.compare_cont Eq) with Pos.compare.
  destruct (Prim2SF x) as [s|s| |s m e]; try destruct s;
    rewrite ?Z.compare_refl, ?Pos.compare_refl; simpl;
    split; intros; try discriminate; reflexivity.
Qed.

Lemma sub_nan (x y : float) :
  PrimFloat.is_nan x = true -> PrimFloat.is_nan (x - y) = true.
Proof.
  rewrite !is_nan_spec, sub_spec. intros ->. reflexivity.
Qed.

Lemma mul_nan (x : float) :
  PrimFloat.is_nan x = true -> PrimFloat.is_nan (x * x) = true.
Proof.
  rewrite !is_nan_spec, mul_spec. intros ->. reflexivity.
Qed.

Lemma add_nan_l (x y : float) :
  PrimFloat.is_nan x = true -> PrimFloat.is_nan (x + y) = true.
Proof.
  rewrite !is_nan_spec, add_spec. intros ->. reflexivity.
Qed.

Lemma add_nan_r (x y : float) :
  PrimFloat.is_nan y = true -> PrimFloat.is_nan (x + y) = true.
Proof.
  rewrite !is_nan_spec, add_spec. intros ->. now destruct (Prim2SF x).
Qed.

Lemma sqrt_nan (x : float) :
  PrimFloat.is_nan x = true -> PrimFloat.is_nan (PrimFloat.sqrt x) = true.
Proof.
  rewrite !is_nan_spec, sqrt_spec. intros ->. reflexivity.
Qed.

(** A centroid with a NaN coordinate is at NaN distance from every point. *)
Lemma euclidean_nan (c p : point float) :
  PrimFloat.is_nan (fst c) || PrimFloat.is_nan (snd c) = true ->
  PrimFloat.is_nan (euclidean c p) = true.
Proof.
  intros H. unfold euclidean, sqeuclidean. cbn [s_add s_sub s_mul s_zero float64].
  apply sqrt_nan. apply orb_true_iff in H. destruct H as [H|H].
  - apply add_nan_l, add_nan_r, mul_nan, sub_nan, H.
  - apply add_nan_r, mul_nan, sub_nan, H.
Qed.

(** X10: a centroid with a NaN coordinate takes the points from every
    centroid after it: in the pass that reads it no label is above its
    index, every point is assigned to a centroid at NaN distance, and the
    centroids after it leave the update as NaN. *)
Theorem nan_centroid_takes_the_points
    (pts : list (point float)) (cs : list (row float)) (ps : list (point float))
    (labels : list nat) (cs' : list (row float)) (j : nat) (c : point float) :
  loop_body euclidean pts cs = Ok (labels, cs') ->
  as_points cs = Some ps ->
  nth_error ps j = Some c ->
  PrimFloat.is_nan (fst c) || PrimFloat.is_nan (snd c) = true ->
  Forall (fun l => l <= j) labels /\
  forall j', j < j' -> j' < length cs -> nth_error cs' j' = Some [nan; nan].
Proof.
  intros H Hps Hj Hnan.
  destruct (loop_body_ok _ _ _ H) as (ps' & Hps' & Hne & _ & El & Ecs).
  rewrite Hps in Hps'. inversion Hps'; subst ps'. clear Hps'.
  assert (Hlab : Forall (fun l => l <= j) labels).
  { rewrite El. apply Forall_forall. intros l Hl.
    apply in_map_iff in Hl. destruct Hl as (p & <- & _).
    set (d := map (fun c0 => euclidean c0 p) ps).
    assert (Hjd : j < length d).
    { unfold d. rewrite length_map. apply nth_error_Some. congruence. }
    assert (Hdj : s_isnan (nth j d s_zero) = true).
    { unfold d. rewrite (nth_indep _ s_zero (euclidean c p)) by exact Hjd.
      rewrite (map_nth (fun c0 => euclidean c0 p)).
      rewrite (nth_error_nth _ _ c Hj). now apply euclidean_nan. }
    destruct (first_nan_exists d Hjd Hdj) as (j0 & Hle & Hn0 & Hb).
    assert (Ha : argmin d = Ok j0)
      by (apply argmin_first_nan; [lia | assumption | assumption]).
    unfold d in Ha. rewrite (argmin_column euclidean p Hne) in Ha.
    inversion Ha. lia. }
  split; [assumption|].
  intros j' Hlt Hj'. subst cs'.
  rewrite (new_centroids_nth _ _ _ Hj'), !boolean_index_no_member; [reflexivity| |];
    intros Hin; rewrite Forall_forall in Hlab; specialize (Hlab j' Hin); lia.
Qed.

Lemma nan_centroid_takes_the_points_witness :
  Forall (fun l => l <= 1) [1; 1; 1; 1] /\
  forall j', 1 < j' -> j' < length [[0; 0]; [nan; nan]; [5; 5]]%float ->
    nth_error [[nan; nan]; [5; 0.5]; [nan; nan]]%float j' = Some [nan; nan].
Proof.
  apply (@nan_centroid_takes_the_points square_points
           [[0; 0]; [nan; nan]; [5; 5]]%float
           [(0, 0); (nan, nan); (5, 5)]%float
           [1; 1; 1; 1] [[nan; nan]; [5; 0.5]; [nan; nan]]%float
           1 (nan, nan)%float).
  - vm_compute. reflexivity.
  - reflexivity.
  - reflexivity.
  - reflexivity.
Defined.

Lemma label_is_the_first_nan_witness :
  nth_error [1; 1; 1; 1] 0 = Some 1.
Proof.
  apply (@label_is_the_first_nan float float64 float64_order euclidean
           [[0; 0]; [nan; nan]; [5; 5]]%float square_points
           [[0; 1; 10; PrimFloat.sqrt 101];
            [nan; nan; nan; nan];
            [PrimFloat.sqrt 50; PrimFloat.sqrt 41;
             PrimFloat.sqrt 50; PrimFloat.sqrt 41]]%float
           [1; 1; 1; 1] 0 1).
  - vm_compute. reflexivity.
  - vm_compute. reflexivity.
  - simpl. lia.
  - simpl. lia.
  - reflexivity.
  - intros k Hk. destruct k; [reflexivity | lia].
Defined.

Lemma cdist_shape_witness :
  length [[0; 5]]%float = length [[0; 0]]%float /\
  forall r, In r [[0; 5]]%float -> length r = length [(0, 0); (3, 4)]%float.
Proof.
  apply (@cdist_shape float euclidean
           [[0; 0]]%float [(0, 0); (3, 4)]%float [[0; 5]]%float).
  vm_compute. reflexivity.
Defined.

Lemma point_colours_in_bounds_witness :
  exists colours,
    point_colours [0; 0; 1; 1] = inr colours /\
    length colours = length square_points.
Proof.
  apply (@point_colours_in_bounds float float64 euclidean
           1 square_points two_centroids [0; 0; 1; 1]
           [[0; 0.5]; [10; 0.5]]%float).
  - left. vm_compute. reflexivity.
  - simpl. lia.
Defined.

Lemma centroids_transpose_to_coordinates_witness :
  exists ps,
    as_points [[0; 0.5]; [10; 0.5]]%float = Some ps /\
    length ps = length two_centroids /\
    transpose [[0; 0.5]; [10; 0.5]]%float = Ok [map fst ps; map snd ps].
Proof.
  apply (@centroids_transpose_to_coordinates float float64 euclidean
           1 square_points two_centroids [0; 0; 1; 1]).
  left. vm_compute. reflexivity.
Defined.

Lemma kmeans_fit_sees_the_loop_points_witness :
  exists rows,
    cell25_input [1; 2]%float [3; 4]%float = Ok rows /\
    as_points rows = Some (combine [1; 2] [3; 4])%float.
Proof.
  apply (@kmeans_fit_sees_the_loop_points float float64 [1; 2]%float [3; 4]%float).
  reflexivity.
Defined.

Lemma notebook_runs_on_every_draw_witness :
  exists tr,
    notebook euclidean (repeat 1%float 50) = Ok (tr, None) /\ length tr = 20 /\
    forall labels centroids, In (labels, centroids) tr ->
      length labels = 25 /\ Forall (fun l => l < 4) labels /\
      length centroids = 4 /\
      exists colours, point_colours labels = inr colours.
Proof.
  apply (@notebook_runs_on_every_draw float float64 euclidean (repeat 1%float 50)).
  reflexivity.
Defined.

Lemma selections_partition_witness :
  Permutation
    (concat (map (fun i => boolean_index [1; 2; 3]%float (labels_eq [1; 0; 1] i))
                 (seq 0 2)))
    [1; 2; 3]%float.
Proof.
  apply (@selections_partition float [1; 2; 3]%float [1; 0; 1] 2).
  - reflexivity.
  - repeat constructor.
Defined.

Lemma one_centroid_is_the_mean_witness :
  for_loop euclidean 3 square_points [[100; 100]]%float
  = (repeat (repeat 0 (length square_points),
             [[mean (xs square_points); mean (ys square_points)]]) 3, None).
Proof.
  apply (@one_centroid_is_the_mean float float64 euclidean
           3 square_points [100; 100]%float).
  - discriminate.
  - reflexivity.
Defined.

End F64Cells.

(** * The wine cells *)

Lemma cell43_cluster_map (labels : list nat) :
  cell43_cluster labels = map (fun l => if Nat.eqb l 0 then 3 else l) labels.
Proof.
  unfold cell43_cluster, labels_eq.
  induction labels as [|l labels IH]; [reflexivity|].
  cbn [map assign_where]. now rewrite IH.
Qed.

(** X11: cell 43 renames cluster 0 to 3 and leaves the other labels alone.
    When the labels are 0, 1 and 2, the cluster column holds only 1, 2 and
    3, one entry per wine, and two wines share a cluster number exactly when
    they shared a label. *)
Theorem cluster_column_renames_zero (labels : list nat) :
  Forall (fun l => l < 3) labels ->
  length (cell43_cluster labels) = length labels /\
  Forall (fun v => 1 <= v <= 3) (cell43_cluster labels) /\
  forall i j li lj,
    nth_error labels i = Some li -> nth_error labels j = Some lj ->
    (nth_error (cell43_cluster labels) i = nth_error (cell43_cluster labels) j
     <-> li = lj).
Proof.
  intros H. rewrite cell43_cluster_map. repeat split.
  - apply length_map.
  - apply Forall_forall. intros v Hv. apply in_map_iff in Hv.
    destruct Hv as (l & <- & Hl). rewrite Forall_forall in H.
    specialize (H l Hl). destruct l; simpl; lia.
  - rewrite !nth_error_map, H0, H1. cbn [option_map].
    rewrite Forall_forall in H.
    pose proof (H li (nth_error_In _ _ H0)).
    pose proof (H lj (nth_error_In _ _ H1)).
    intros E. inversion E as [E'].
    destruct li, lj; simpl in E'; lia.
  - intros ->. rewrite !nth_error_map, H0, H1. reflexivity.
Qed.

Lemma cluster_column_renames_zero_witness :
  length (cell43_cluster [0; 1; 2; 0]) = length [0; 1; 2; 0] /\
  Forall (fun v => 1 <= v <= 3) (cell43_cluster [0; 1; 2; 0]) /\
  forall i j li lj,
    nth_error [0; 1; 2; 0] i = Some li -> nth_error [0; 1; 2; 0] j = Some lj ->
    (nth_error (cell43_cluster [0; 1; 2; 0]) i
       = nth_error (cell43_cluster [0; 1; 2; 0]) j
     <-> li = lj).
Proof.
  apply (@cluster_column_renames_zero [0; 1; 2; 0]).
  repeat constructor.
Defined.

(** X12: cells 32 and 33 succeed exactly on a table of fourteen columns.
    [wine] then carries the fourteen attribute names over the table's
    columns, [y] is the first column (the grape), and [X] is [wine] without
    it: the thirteen measurements in order, so the grape label is not among
    what is handed to the PCA.  No [KeyError] can occur. *)
Theorem wine_table_is_split {V : Type} (table : frame V) :
  cell32_33 table
  = match table with
    | col :: rest =>
        if Nat.eqb (length table) 14
        then inr (combine attributes (map snd table),
                  combine (tl attributes) (map snd rest),
                  [snd col])
        else inl (FromLoop ValueError)
    | [] => inl (FromLoop ValueError)
    end.
Proof.
  unfold cell32_33, set_columns.
  destruct table as [|col rest]; [reflexivity|].
  change (length attributes) with 14.
  destruct (Nat.eqb_spec 14 (length (col :: rest))) as [E|E].
  - rewrite Nat.eqb_sym.
    destruct (Nat.eqb_spec 14 (length (col :: rest))) as [_|]; [|contradiction].
    do 13 (destruct rest as [|? rest]; [discriminate|]).
    destruct rest; [|discriminate]. reflexivity.
  - rewrite Nat.eqb_sym.
    destruct (Nat.eqb_spec 14 (length (col :: rest))) as [|_]; [contradiction|].
    reflexivity.
Qed.

(** * The two steps are optimal without rounding *)

Module RationalCells.
Import Rational RationalFacts.
Local Open Scope Q_scope.





End RationalCells.

(** * More on the loop *)

Section LoopFacts.

Context {T : Type} {SC : Scalar T}.
Variable metric : point T -> point T -> T.

Lemma last_cons {A : Type} (a : A) (l : list A) (d : A) :
  last (a :: l) d = last l a.
Proof.
  revert a d. induction l as [|b l IH]; intros a d; [reflexivity|].
  change (last (a :: b :: l) d) with (last (b :: l) d).
  now rewrite !IH.
Qed.

(** X15: [n + m] passes are [n] passes followed by [m] passes from the
    centroids the first [n] left, when those raised nothing. *)
Theorem loop_splits (n m : nat) (pts : list (point T)) (cs : list (row T)) :
  snd (for_loop metric n pts cs) = None ->
  for_loop metric (n + m) pts cs
  = (fst (for_loop metric n pts cs)
       ++ fst (for_loop metric m pts (final_centroids metric n pts cs)),
     snd (for_loop metric m pts (final_centroids metric n pts cs))).
Proof.
  revert cs. induction n as [|n IH]; intros cs Hnone.
  - cbn [Nat.add]. unfold final_centroids. cbn.
    now destruct (for_loop metric m pts cs).
  - destruct (loop_body metric pts cs) as [[l c']|e] eqn:E.
    + rewrite (for_loop_step metric n _ _ E) in Hnone. cbn [snd] in Hnone.
      change (S n + m) with (S (n + m)).
      rewrite (for_loop_step metric (n + m) _ _ E), (IH c' Hnone).
      unfold final_centroids.
      rewrite (for_loop_step metric n _ _ E). cbn [fst snd map app].
      now rewrite last_cons.
    + rewrite (for_loop_raise metric n _ _ E) in Hnone. discriminate.
Qed.

(** X16: the label of a point depends on the point and the centroids only:
    the same point among other points, at another position, gets the same
    label from the same centroids. *)
Theorem label_depends_on_the_point_only
    (pts pts' : list (point T)) (cs : list (row T))
    (labels labels' : list nat) (cs1 cs2 : list (row T))
    (i i' : nat) (p : point T) :
  loop_body metric pts cs = Ok (labels, cs1) ->
  loop_body metric pts' cs = Ok (labels', cs2) ->
  nth_error pts i = Some p -> nth_error pts' i' = Some p ->
  exists l, nth_error labels i = Some l /\ nth_error labels' i' = Some l.
Proof.
  intros H H' Hi Hi'.
  destruct (loop_body_ok _ _ _ H) as (ps & Hps & _ & _ & -> & _).
  destruct (loop_body_ok _ _ _ H') as (ps' & Hps' & _ & _ & -> & _).
  rewrite Hps in Hps'. inversion Hps'; subst ps'.
  exists (nearest metric ps p).
  now rewrite !nth_error_map, Hi, Hi'.
Qed.

End LoopFacts.

(** X17: the colour lookup raises [IndexError] exactly when some label is
    four or more. *)
Theorem point_colours_index_error (labels : list nat) :
  point_colours labels = inl IndexError <->
  Exists (fun l => 4 <= l) labels.
Proof.
  split.
  - intros H. destruct (Exists_dec (fun l => 4 <= l) labels) as [E|E];
      [intros l; apply le_dec | assumption |].
    apply Forall_Exists_neg in E.
    destruct (@take_in_bounds _ rgbc labels) as (vs & Hv & _).
    + eapply Forall_impl; [|exact E]. simpl. intros; lia.
    + unfold point_colours in H. congruence.
  - intros H. apply take_out_of_bounds.
    eapply Exists_impl; [|exact H]. simpl. intros; lia.
Qed.

Module F64Loop.

Import F64.

Lemma loop_splits_witness :
  for_loop euclidean (1 + 2) square_points two_centroids
  = (fst (for_loop euclidean 1 square_points two_centroids)
       ++ fst (for_loop euclidean 2 square_points
                 (final_centroids euclidean 1 square_points two_centroids)),
     snd (for_loop euclidean 2 square_points
            (final_centroids euclidean 1 square_points two_centroids))).
Proof.
  apply (@loop_splits float float64 euclidean 1 2 square_points two_centroids).
  vm_compute. reflexivity.
Defined.

Lemma label_depends_on_the_point_only_witness :
  exists l, nth_error [0; 0; 1; 1] 2 = Some l /\ nth_error [1] 0 = Some l.
Proof.
  apply (@label_depends_on_the_point_only float float64 euclidean
           square_points [(10, 0)]%float two_centroids
           [0; 0; 1; 1] [1]
           [[0; 0.5]; [10; 0.5]]%float [[nan; nan]; [10; 0]]%float
           2 0 (10, 0)%float).
  - vm_compute. reflexivity.
  - vm_compute. reflexivity.
  - reflexivity.
  - reflexivity.
Defined.

End F64Loop.

(** * Ties and NaN distances in the assignment step *)

Module TiesFacts.
Import F64 F64Facts Ties.

(** [argmin] returns an index of its argument. *)
Lemma argmin_in_range (d : list float) (l : nat) :
  argmin d = Ok l -> l < length d.
Proof.
  destruct d as [|v d]; simpl; [discriminate|].
  intros H. injection H as <-.
  destruct (PrimFloat.is_nan v); [lia|].
  pose proof (@argmin_scan_bound _ _ d v 0 1 ltac:(lia)). lia.
Qed.

(** The column of a point holds its distances to the centroids, in the
    order of the centroids. *)
Lemma distance_column (ps : list (point float)) (p : point float) (j : nat)
    (c : point float) :
  nth_error ps j = Some c ->
  nth j (map (fun c' => euclidean c' p) ps) s_zero = euclidean c p.
Proof.
  intros H.
  rewrite (nth_indep _ s_zero (euclidean c p))
    by (rewrite length_map; apply nth_error_Some; congruence).
  change (euclidean c p) with ((fun c' => euclidean c' p) c) at 1.
  rewrite map_nth. now rewrite (nth_error_nth _ _ _ H).
Qed.

(** C4: in every assignment step (cell 13 followed by cell 15), for every
    point [p] and the distances [euclidean c p] from the centroids [c] to
    it: the point has a label, which is the index of a centroid; if none of
    the distances is NaN, the labelled centroid is at minimum distance and
    no centroid at minimum distance has a lower index, so a tie goes to the
    lowest index; if some distance is NaN, the labelled centroid is the
    first whose distance is NaN, wherever the smallest number stands. *)
Theorem label_is_lowest_minimum_or_first_nan
    (centroids : list (row float)) (points : list (point float))
    (distances : list (list float)) (labels : list nat)
    (ps : list (point float)) (i : nat) (p : point float) :
  cell13 euclidean centroids points = Ok distances ->
  cell15 distances = Ok labels ->
  as_points centroids = Some ps ->
  nth_error points i = Some p ->
  exists l c,
    nth_error labels i = Some l /\ nth_error ps l = Some c /\
    ((forall j cj, nth_error ps j = Some cj ->
                   PrimFloat.is_nan (euclidean cj p) = false) ->
     at_minimum_distance ps p l /\
     forall j, at_minimum_distance ps p j -> l <= j) /\
    ((exists j cj, nth_error ps j = Some cj /\
                   PrimFloat.is_nan (euclidean cj p) = true) ->
     PrimFloat.is_nan (euclidean c p) = true /\
     forall j cj, nth_error ps j = Some cj ->
                  PrimFloat.is_nan (euclidean cj p) = true -> l <= j).
Proof.
  intros H13 H15 Hps Hp.
  assert (Hi : i < length points) by (apply nth_error_Some; congruence).
  unfold cell13, cell15 in *.
  destruct (assignment_is_column_argmin _ _ _ H13 H15 Hi) as (l & Hl & Ha).
  destruct (cdist_ok _ _ _ H13) as (ps' & Hps' & Hne & _ & ->).
  assert (ps' = ps) by congruence. subst ps'.
  rewrite (column_cdist euclidean ps points p Hi) in Ha.
  rewrite (nth_error_nth _ _ p Hp) in Ha.
  set (d := map (fun c => euclidean c p) ps) in *.
  assert (Hlen : length d = length ps) by (unfold d; apply length_map).
  pose proof (argmin_in_range _ Ha) as Hlt. rewrite Hlen in Hlt.
  destruct (nth_error ps l) as [c|] eqn:Hc;
    [|apply nth_error_None in Hc; lia].
  exists l, c. repeat split; try assumption.
  - (* the label is at minimum distance *)
    assert (Hnn : forall v, In v d -> s_isnan v = false).
    { intros v Hv. apply in_map_iff in Hv. destruct Hv as (c' & <- & Hin).
      destruct (In_nth_error _ _ Hin) as (k & Hk). exact (H k c' Hk). }
    assert (Hd : d <> []).
    { intros E. apply Hne. apply length_zero_iff_nil.
      rewrite <- Hlen, E. reflexivity. }
    destruct (column_without_nan_has_minimum Hd Hnn) as (j0 & Hj0).
    destruct (argmin_lowest_minimum Hj0 Ha) as (_ & _ & Hmin).
    exists c. repeat split; [assumption|exact (H l c Hc)|].
    intros k c' Hk _.
    specialize (Hmin k ltac:(rewrite Hlen; apply nth_error_Some; congruence)).
    unfold d in Hmin.
    now rewrite (@distance_column _ p _ _ Hc), (@distance_column _ p _ _ Hk) in Hmin.
  - (* no lower index is at minimum distance *)
    intros j (cj & Hj & _ & Hjmin).
    assert (Hm : is_minimum d j).
    { split; [rewrite Hlen; apply nth_error_Some; congruence|].
      intros k Hk. rewrite Hlen in Hk.
      destruct (nth_error ps k) as [ck|] eqn:Hck;
        [|apply nth_error_None in Hck; lia].
      unfold d. rewrite (@distance_column _ p _ _ Hj), (@distance_column _ p _ _ Hck).
      apply (Hjmin k ck Hck). exact (H k ck Hck). }
    apply (argmin_lowest_minimum Hm Ha).
  - (* some distance is NaN: the label's distance is NaN *)
    destruct H as (j & cj & Hj & Hnan).
    assert (Hjd : j < length d)
      by (rewrite Hlen; apply nth_error_Some; congruence).
    assert (Hjn : s_isnan (nth j d s_zero) = true)
      by (unfold d; now rewrite (@distance_column _ p _ _ Hj)).
    destruct (first_nan_exists d Hjd Hjn) as (j0 & Hle & Hn0 & Hlow).
    assert (E : Ok l = Ok j0)
      by (rewrite <- Ha; apply argmin_first_nan;
          [lia | assumption | assumption]).
    injection E as ->.
    unfold d in Hn0. now rewrite (@distance_column _ p _ _ Hc) in Hn0.
  - (* and no lower index has a NaN distance *)
    intros j cj Hj Hnan.
    assert (Hjd : j < length d)
      by (rewrite Hlen; apply nth_error_Some; congruence).
    assert (Hjn : s_isnan (nth j d s_zero) = true)
      by (unfold d; now rewrite (@distance_column _ p _ _ Hj)).
    destruct (first_nan_exists d Hjd Hjn) as (j0 & Hle & Hn0 & Hlow).
    assert (E : Ok l = Ok j0)
      by (rewrite <- Ha; apply argmin_first_nan;
          [lia | assumption | assumption]).
    injection E as ->. exact Hle.
Qed.


Lemma label_is_lowest_minimum_or_first_nan_witness :
  exists l c,
    nth_error [2; 2; 2] 1 = Some l /\
    nth_error [(0, 0); (10, 0); (nan, nan)]%float l = Some c /\
    ((forall j cj,
         nth_error [(0, 0); (10, 0); (nan, nan)]%float j = Some cj ->
         PrimFloat.is_nan (euclidean cj (5, 0)%float) = false) ->
     at_minimum_distance [(0, 0); (10, 0); (nan, nan)]%float (5, 0)%float l /\
     forall j,
       at_minimum_distance [(0, 0); (10, 0); (nan, nan)]%float (5, 0)%float j ->
       l <= j) /\
    ((exists j cj,
         nth_error [(0, 0); (10, 0); (nan, nan)]%float j = Some cj /\
         PrimFloat.is_nan (euclidean cj (5, 0)%float) = true) ->
     PrimFloat.is_nan (euclidean c (5, 0)%float) = true /\
     forall j cj,
       nth_error [(0, 0); (10, 0); (nan, nan)]%float j = Some cj ->
       PrimFloat.is_nan (euclidean cj (5, 0)%float) = true -> l <= j).
Proof.
  apply (@label_is_lowest_minimum_or_first_nan
           [[0; 0]; [10; 0]; [nan; nan]]%float tied_points
           [[5; 5; 10]; [15; 5; 0]; [nan; nan; nan]]%float).
  - vm_compute. reflexivity.
  - vm_compute. reflexivity.
  - reflexivity.
  - reflexivity.
Defined.

(** A valid construction whose second pass meets a tie beside a NaN
    distance: centroids 0 and 1 are both at distance 5 from the point
    (5, 0), centroid 2 has lost its points in the first pass, and the point
    is labelled 2. *)
Lemma tie_beside_nan_goes_to_the_nan_centroid :
  valid_construction 2 tied_points tied_centroids /\
  ~ every_step_breaks_ties_low tied_points tied_centroids
      (fst (for_loop euclidean 2 tied_points tied_centroids)).
Proof.
  split.
  - unfold valid_construction. simpl length. repeat split; try lia.
    intros c [<-|[<-|[<-|[]]]]; reflexivity.
  - intros H.
    assert (Hmin : forall j, j < 2 ->
              at_minimum_distance [(0, 0); (10, 0); (nan, nan)]%float
                                  (5, 0)%float j).
    { intros j Hj.
      assert (Hc : exists c, nth_error [(0, 0); (10, 0)]%float j = Some c /\
                             euclidean c (5, 0)%float = 5%float).
      { destruct j as [|[|j]]; [eexists; split; reflexivity ..|lia]. }
      destruct Hc as (c & Hc & Hd). exists c. rewrite Hd.
      split; [|split; [reflexivity|]].
      - destruct j as [|[|j]]; [exact Hc ..|lia].
      - intros k c' Hk Hn.
        destruct k as [|[|[|k]]]; simpl in Hk.
        + assert (c' = (0, 0)%float) by congruence. subst c'. reflexivity.
        + assert (c' = (10, 0)%float) by congruence. subst c'. reflexivity.
        + assert (c' = (nan, nan)%float) by congruence. subst c'.
          vm_compute in Hn. discriminate.
        + destruct k; discriminate. }
    assert (Heq : equidistant [(0, 0); (10, 0); (nan, nan)]%float
                              (5, 0)%float 0 1).
    { exists (0, 0)%float, (10, 0)%float. repeat split. }
    destruct (H 1 [[0; 0]; [10; 0]; [nan; nan]]%float
                [(0, 0); (10, 0); (nan, nan)]%float [2; 2; 2]
                ltac:(vm_compute; reflexivity) ltac:(vm_compute; reflexivity)
                eq_refl 1 (5, 0)%float 0 1 eq_refl ltac:(lia) Heq
                (Hmin 0 ltac:(lia)) (Hmin 1 ltac:(lia)))
      as (l & Hl & (c & Hc & Hn & _) & _).
    simpl in Hl. assert (l = 2) by congruence. subst l.
    simpl in Hc. assert (c = (nan, nan)%float) by congruence. subst c.
    vm_compute in Hn. discriminate.
Qed.

End TiesFacts.

(** * Cell 21 in the kernel *)

Section KernelFacts.

Context {T : Type} {SC : Scalar T}.
Variable R : Type.

(** [cdist] reads the distance function only through its values. *)
Lemma cdist_ext (m1 m2 : point T -> point T -> T) (cs : list (row T))
    (pts : list (point T)) :
  (forall u v, m1 u v = m2 u v) -> cdist m1 cs pts = cdist m2 cs pts.
Proof.
  intros H. unfold cdist. destruct cs; [reflexivity|].
  destruct pts; [reflexivity|]. destruct (as_points _); [|reflexivity].
  f_equal. apply map_ext. intros c'. apply map_ext. intros q. apply H.
Qed.

(** The body reads [x], [y] and [centroids] and nothing else: it assigns
    [distances] and [labels] before it reads them. *)
Lemma body_reads (m1 m2 : point T -> point T -> T) (e1 e2 : Kernel.namespace T R) :
  (forall u v, m1 u v = m2 u v) ->
  Kernel.x e1 = Kernel.x e2 -> Kernel.y e1 = Kernel.y e2 ->
  Kernel.centroids e1 = Kernel.centroids e2 ->
  let r1 := Kernel.body m1 e1 in
  let r2 := Kernel.body m2 e2 in
  snd r1 = snd r2 /\
  Kernel.x (fst r1) = Kernel.x (fst r2) /\
  Kernel.y (fst r1) = Kernel.y (fst r2) /\
  Kernel.centroids (fst r1) = Kernel.centroids (fst r2) /\
  (snd r1 = None \/
   (Kernel.labels e1 = Kernel.labels e2 /\
    Kernel.distances e1 = Kernel.distances e2) ->
   Kernel.labels (fst r1) = Kernel.labels (fst r2) /\
   Kernel.distances (fst r1) = Kernel.distances (fst r2)).
Proof.
  intros Hm Hx Hy Hc. unfold Kernel.body.
  rewrite (@cdist_ext m1 m2 _ _ Hm), Hx, Hy, Hc.
  destruct (cdist m2 _ _) as [D|ex]; simpl.
  - destruct (argmin_axis0 D) as [l|ex]; simpl.
    + unfold Kernel.member_means. simpl. rewrite Hx, Hy, Hc.
      destruct (Kernel.comprehension _ _); simpl; intuition congruence.
    + intuition congruence.
  - intuition congruence.
Qed.

(** So does the loop. *)
Lemma for_range_reads (m1 m2 : point T -> point T -> T) (n : nat)
    (e1 e2 : Kernel.namespace T R) :
  (forall u v, m1 u v = m2 u v) ->
  Kernel.x e1 = Kernel.x e2 -> Kernel.y e1 = Kernel.y e2 ->
  Kernel.centroids e1 = Kernel.centroids e2 ->
  let r1 := Kernel.for_range m1 n e1 in
  let r2 := Kernel.for_range m2 n e2 in
  Kernel.record r1 = Kernel.record r2 /\
  Kernel.raised r1 = Kernel.raised r2 /\
  Kernel.centroids (Kernel.namespace_left r1)
  = Kernel.centroids (Kernel.namespace_left r2) /\
  (Kernel.record r1 <> [] \/
   (Kernel.labels e1 = Kernel.labels e2 /\
    Kernel.distances e1 = Kernel.distances e2) ->
   Kernel.labels (Kernel.namespace_left r1)
   = Kernel.labels (Kernel.namespace_left r2) /\
   Kernel.distances (Kernel.namespace_left r1)
   = Kernel.distances (Kernel.namespace_left r2)).
Proof.
  intros Hm. revert e1 e2. induction n as [|n IH]; intros e1 e2 Hx Hy Hc; simpl.
  - split; [reflexivity|]. split; [reflexivity|]. split; [assumption|].
    intros [H|H]; [congruence|assumption].
  - pose proof (@body_reads m1 m2 e1 e2 Hm Hx Hy Hc) as Hb. simpl in Hb.
    destruct (Kernel.body m1 e1) as [e1' o1], (Kernel.body m2 e2) as [e2' o2].
    simpl in Hb. destruct Hb as (Ho & Hx' & Hy' & Hc' & Hl'). subst o2.
    destruct o1 as [ex|]; simpl.
    + split; [reflexivity|]. split; [reflexivity|]. split; [assumption|].
      intros [H|H]; [congruence|]. apply Hl'. now right.
    + destruct (Hl' (or_introl eq_refl)) as [Hl Hd].
      destruct (IH e1' e2' Hx' Hy' Hc') as (Hr & Hra & Hcs & Hls).
      rewrite Hr, Hl, Hc'.
      split; [reflexivity|]. split; [assumption|]. split; [assumption|].
      intros _. apply Hls. right. now split.
Qed.

Lemma comprehension_total {A B : Type} (f : A -> attempt B) (g : A -> B)
    (l : list A) :
  (forall a, In a l -> f a = inr (g a)) ->
  Kernel.comprehension f l = inr (map g l).
Proof.
  induction l as [|a l IH]; intros H; simpl; [reflexivity|].
  rewrite (H a (or_introl eq_refl)), IH; [reflexivity|].
  intros b Hb. apply H. now right.
Qed.

(** With arrays [x] and [y] of one length the body is [loop_body] on the
    points [list(zip(x,y))]. *)
Lemma body_is_loop_body (metric : point T -> point T -> T) (e : Kernel.namespace T R) :
  length (Kernel.x e) = length (Kernel.y e) ->
  match loop_body metric (combine (Kernel.x e) (Kernel.y e))
                  (Kernel.centroids e) with
  | Ok (l, cs) =>
      snd (Kernel.body metric e) = None /\
      Kernel.labels (fst (Kernel.body metric e)) = l /\
      Kernel.centroids (fst (Kernel.body metric e)) = cs /\
      Kernel.x (fst (Kernel.body metric e)) = Kernel.x e /\
      Kernel.y (fst (Kernel.body metric e)) = Kernel.y e
  | Raise ex => snd (Kernel.body metric e) = Some (FromLoop ex)
  end.
Proof.
  intros Hlen.
  destruct (loop_body metric _ _) as [[l cs]|ex] eqn:E.
  - pose proof (loop_body_post _ _ _ E) as (Hl & _).
    unfold loop_body in E. unfold Kernel.body.
    destruct (cdist metric _ _) as [D|]; simpl in E; [|discriminate].
    simpl. destruct (argmin_axis0 D) as [l'|]; simpl in E; [|discriminate].
    injection E as -> <-. simpl.
    destruct (combine_projections (Kernel.x e) (Kernel.y e) Hlen) as [Ex Ey].
    rewrite Ex, Ey.
    rewrite (@comprehension_total _ _ _
               (fun i => [mean (boolean_index (Kernel.x e) (labels_eq l i));
                          mean (boolean_index (Kernel.y e) (labels_eq l i))])).
    + simpl. repeat split.
    + intros i _. unfold Kernel.member_means, Kernel.getitem. simpl.
      assert (Hx : length l = length (Kernel.x e)).
      { rewrite Hl. unfold point. rewrite length_combine. lia. }
      unfold labels_eq. rewrite !length_map, <- Hlen, Hx, Nat.eqb_refl.
      reflexivity.
  - unfold loop_body in E. unfold Kernel.body.
    destruct (cdist metric _ _) as [D|ex0] eqn:Ec; simpl in E.
    + destruct (cdist_ok _ _ _ Ec) as (ps & Eps & Hps & Hpts & ->).
      rewrite (argmin_axis0_cdist metric) in E by assumption. discriminate.
    + simpl. congruence.
Qed.

(** The loop in the kernel records what [for_loop] records. *)
Lemma for_range_is_for_loop (metric : point T -> point T -> T) (n : nat)
    (e : Kernel.namespace T R) :
  length (Kernel.x e) = length (Kernel.y e) ->
  Kernel.record (Kernel.for_range metric n e)
  = fst (for_loop metric n (combine (Kernel.x e) (Kernel.y e))
                  (Kernel.centroids e)) /\
  Kernel.raised (Kernel.for_range metric n e)
  = option_map FromLoop
      (snd (for_loop metric n (combine (Kernel.x e) (Kernel.y e))
                     (Kernel.centroids e))).
Proof.
  revert e. induction n as [|n IH]; intros e Hlen; [now split|].
  pose proof (body_is_loop_body metric e Hlen) as Hb.
  destruct (loop_body metric _ _) as [[l cs]|ex] eqn:E.
  - rewrite (for_loop_step metric n _ _ E). simpl.
    destruct (Kernel.body metric e) as [e' o]. simpl in Hb.
    destruct Hb as (-> & <- & <- & Hx & Hy).
    destruct (IH e') as [Hr Hra]; [congruence|].
    simpl. rewrite Hr, Hra, Hx, Hy. now split.
  - rewrite (for_loop_raise metric n _ _ E). simpl.
    destruct (Kernel.body metric e) as [e' o]. simpl in Hb. subst o.
    now split.
Qed.

(** C7: two runs of cell 21 with the same number of passes and distance
    functions of the same values, in two kernels that hold the same [x],
    [y] and [new_centroids] and differ in anything else (the [centroids],
    [distances], [labels] and [iterations] that earlier cells or an earlier
    run have left, the state of the random generator), record the same
    labels and the same centroids after every pass, end with the same
    exception or with none, and leave the same [centroids]; as soon as one
    pass has completed they leave the same [labels] and [distances] too.
    With [x] and [y] of one length the record is the one of [for_loop] on
    the points [list(zip(x,y))] and the centroids [new_centroids]. *)
Theorem run_depends_on_its_inputs_only
    (m1 m2 : point T -> point T -> T) (N1 N2 : nat) (e1 e2 : Kernel.namespace T R) :
  (forall u v, m1 u v = m2 u v) ->
  N1 = N2 ->
  Kernel.x e1 = Kernel.x e2 ->
  Kernel.y e1 = Kernel.y e2 ->
  Kernel.new_centroids e1 = Kernel.new_centroids e2 ->
  let r1 := Kernel.run_cell21 m1 N1 e1 in
  let r2 := Kernel.run_cell21 m2 N2 e2 in
  Kernel.record r1 = Kernel.record r2 /\
  Kernel.raised r1 = Kernel.raised r2 /\
  Kernel.centroids (Kernel.namespace_left r1)
  = Kernel.centroids (Kernel.namespace_left r2) /\
  (Kernel.record r1 <> [] ->
   Kernel.labels (Kernel.namespace_left r1)
   = Kernel.labels (Kernel.namespace_left r2) /\
   Kernel.distances (Kernel.namespace_left r1)
   = Kernel.distances (Kernel.namespace_left r2)) /\
  (length (Kernel.x e1) = length (Kernel.y e1) ->
   Kernel.record r1
   = fst (for_loop m1 N1 (combine (Kernel.x e1) (Kernel.y e1))
                   (Kernel.new_centroids e1)) /\
   Kernel.raised r1
   = option_map FromLoop
       (snd (for_loop m1 N1 (combine (Kernel.x e1) (Kernel.y e1))
                      (Kernel.new_centroids e1)))).
Proof.
  intros Hm <- Hx Hy Hn. unfold Kernel.run_cell21. simpl.
  set (s1 := Kernel.assign_iterations N1 (Kernel.assign_centroids _ e1)).
  set (s2 := Kernel.assign_iterations N1 (Kernel.assign_centroids _ e2)).
  destruct (@for_range_reads m1 m2 N1 s1 s2 Hm Hx Hy Hn)
    as (Hr & Hra & Hc & Hl).
  split; [assumption|]. split; [assumption|]. split; [assumption|]. split.
  - intros H. apply Hl. now left.
  - intros H. apply (@for_range_is_for_loop m1 N1 s1 H).
Qed.

End KernelFacts.

Module F64Kernel.
Import F64.

Lemma run_depends_on_its_inputs_only_witness :
  let r1 := Kernel.run_cell21 F64.euclidean 3 Kernel.kernel_after_cell18 in
  let r2 := Kernel.run_cell21 F64.euclidean 3 Kernel.kernel_after_a_run in
  Kernel.record r1 = Kernel.record r2 /\
  Kernel.raised r1 = Kernel.raised r2 /\
  Kernel.centroids (Kernel.namespace_left r1)
  = Kernel.centroids (Kernel.namespace_left r2) /\
  (Kernel.record r1 <> [] ->
   Kernel.labels (Kernel.namespace_left r1)
   = Kernel.labels (Kernel.namespace_left r2) /\
   Kernel.distances (Kernel.namespace_left r1)
   = Kernel.distances (Kernel.namespace_left r2)) /\
  (length (Kernel.x Kernel.kernel_after_cell18)
   = length (Kernel.y Kernel.kernel_after_cell18) ->
   Kernel.record r1
   = fst (for_loop F64.euclidean 3
            (combine (Kernel.x Kernel.kernel_after_cell18)
                     (Kernel.y Kernel.kernel_after_cell18))
            (Kernel.new_centroids Kernel.kernel_after_cell18)) /\
   Kernel.raised r1
   = option_map FromLoop
       (snd (for_loop F64.euclidean 3
               (combine (Kernel.x Kernel.kernel_after_cell18)
                        (Kernel.y Kernel.kernel_after_cell18))
               (Kernel.new_centroids Kernel.kernel_after_cell18)))).
Proof.
  apply (@run_depends_on_its_inputs_only float F64.float64 nat
           F64.euclidean F64.euclidean 3 3
           Kernel.kernel_after_cell18 Kernel.kernel_after_a_run).
  - intros u v. reflexivity.
  - reflexivity.
  - reflexivity.
  - reflexivity.
  - reflexivity.
Defined.

(** The two kernels of the example differ, and their runs record three
    passes. *)
Lemma stale_variables_differ :
  Kernel.labels Kernel.kernel_after_cell18
  <> Kernel.labels Kernel.kernel_after_a_run /\
  Kernel.record (Kernel.run_cell21 F64.euclidean 3 Kernel.kernel_after_a_run)
  = [([0; 0; 1; 1], [[0; 0.5]; [10; 0.5]]%float);
     ([0; 0; 1; 1], [[0; 0.5]; [10; 0.5]]%float);
     ([0; 0; 1; 1], [[0; 0.5]; [10; 0.5]]%float)].
Proof. split; [discriminate|]. vm_compute. reflexivity. Qed.

End F64Kernel.
